(** * es-next: the collection layer of [src/collections.ts], embedded in Rocq

    The development follows the TypeScript sources:
    - [JS]          the host: values, property keys, own-property order,
                    the error/result monad, the environment of a run
                    (callables and what values inherit), property reads,
                    the built-in [Set] constructor;
    - [Globals]     [src/globals/index.ts]: the type oracle, [len], [isEmpty],
                    [get], [call], [hashCode];
    - [Operators]   the identity function of [operators.js];
    - [Collections] [src/collections.ts]: [Collection], [FrozenSet], [flatten],
                    [flattenArray], [flattenObj], [pick], [omit], [clone],
                    [contains], [index], [uniq], [sortedUniq], and in
                    [Collections.Arrays] the functions that take an iteratee:
                    [matches], [filter], [find], [findRight], [map];
    - [Samples]     two callables, the members of the standard prototypes
                    and the oracles of [operators.js], for running the
                    functions on concrete inputs;
    - [Spec]        the notions the properties are stated with.
    The properties of these definitions come after the modules. *)

From stdpp Require Import base numbers list strings pretty sorting gmap.

(* ===================================================================== *)
(** * The host *)
(* ===================================================================== *)
Module JS.

(** ** Errors and results

    A call either returns or throws.  The classes are those the sources
    use: the built-in [TypeError] and the [CustomError] subclasses of
    [globals/index.ts]. *)
Inductive error : Type :=
| TypeError (message : string)
| IndexError
| IOError
| KeyError
| NotImplementedError
| ValueError
| ZeroDivisionError.

Inductive result (A : Type) : Type :=
| Ok (a : A)
| Throw (e : error).
Arguments Ok {A} a.
Arguments Throw {A} e.

Definition bind {A B} (m : result A) (k : A → result B) : result B :=
  match m with
  | Ok a => k a
  | Throw e => Throw e
  end.

Notation "'do' x <- m ; k" := (bind m (λ x, k))
  (at level 10, x name, m at level 100, k at level 200).

(** ** Values

    A number is an integer-valued double (a safe integer) or [NaN]; an
    array is the list of its elements (no holes); an object is a plain
    object, given by its own enumerable string-keyed data properties in
    own-property order, its prototype being [Object.prototype]; a
    wrapper object is what [new String(s)] or [new Boolean(b)] makes.
    Values are finite trees: two occurrences of an array are two arrays,
    and cyclic structures do not exist.  There are no symbols, bigints,
    non-integer numbers, Sets, Maps, generators or class instances among
    the values.  What a value inherits from the prototypes of the host
    is not part of the value: the environment below gives it.

    A function value is a handle on a callable, the user's or a
    built-in method, together with the source text
    [Function.prototype.toString] reports for it.  The callables are
    ordinary functions: [f.constructor] is [Function] for each of
    them.  An object that has [Function] for its own [constructor]
    property, which [isFunc] would take for a function, is not among
    the values. *)
Record func : Type := Func { fn_id : nat; fn_source : string }.

#[local] Unset Elimination Schemes.
Inductive value : Type :=
| VUndef
| VNull
| VBool (b : bool)
| VNum (n : Z)
| VNaN
| VStr (s : string)
| VArr (items : list value)
| VObj (props : list (string * value))
| VFun (f : func)
| VStrObj (s : string)
| VBoolObj (b : bool).
#[local] Set Elimination Schemes.

Definition object : Type := list (string * value).

(** Induction over nested arrays and objects. *)
Definition value_nested_ind (P : value → Prop)
    (Hundef : P VUndef) (Hnull : P VNull) (Hbool : ∀ b, P (VBool b))
    (Hnum : ∀ n, P (VNum n)) (Hnan : P VNaN) (Hstr : ∀ s, P (VStr s))
    (Harr : ∀ items, Forall P items → P (VArr items))
    (Hobj : ∀ props, Forall (λ kv, P kv.2) props → P (VObj props))
    (Hfun : ∀ f, P (VFun f))
    (Hstrobj : ∀ s, P (VStrObj s)) (Hboolobj : ∀ b, P (VBoolObj b)) : ∀ v, P v :=
  fix go (v : value) : P v :=
    match v with
    | VUndef => Hundef
    | VNull => Hnull
    | VBool b => Hbool b
    | VNum n => Hnum n
    | VNaN => Hnan
    | VStr s => Hstr s
    | VArr items =>
        Harr items
          ((fix all (l : list value) : Forall P l :=
              match l with
              | [] => @List.Forall_nil _ P
              | x :: l' => @List.Forall_cons _ P x l' (go x) (all l')
              end) items)
    | VObj props =>
        Hobj props
          ((fix all (l : list (string * value)) : Forall (λ kv, P kv.2) l :=
              match l with
              | [] => @List.Forall_nil _ _
              | kv :: l' => @List.Forall_cons _ _ kv l' (go kv.2) (all l')
              end) props)
    | VFun f => Hfun f
    | VStrObj s => Hstrobj s
    | VBoolObj b => Hboolobj b
    end.

(** The environment of a run.

    Callables are pure and total: [call_fn f this args] is what
    [f.apply(this, args)] returns.  A callable that throws or mutates its
    arguments is outside the model.

    [inherited x k] is what reading [x[k]] finds when [x] has no own
    property [k]: the member of that name on the prototype chain of [x]
    ([String.prototype], [Array.prototype], [Function.prototype], ...,
    [Object.prototype]), a built-in method for one, and [undefined] when
    there is none.  For a function, whose own properties ([length],
    [name]) are not part of the handle, it gives every property.  The
    prototypes are those of the host, whatever version it is, so the
    properties below make no assumption on what they hold; a property
    that needs a key not to be inherited says so. *)
Class Environment : Type := {
  call_fn : func → value → list value → value;
  inherited : value → string → value
}.

(** [!!x] *)
Definition truthy (x : value) : bool :=
  match x with
  | VUndef | VNull | VNaN => false
  | VBool b => b
  | VNum n => negb (n =? 0)%Z
  | VStr s => negb (String.eqb s "")
  | VArr _ | VObj _ | VFun _ | VStrObj _ | VBoolObj _ => true
  end.

(** [typeof x] *)
Definition typeof (x : value) : string :=
  match x with
  | VUndef => "undefined"
  | VNull => "object"
  | VBool _ => "boolean"
  | VNum _ | VNaN => "number"
  | VStr _ => "string"
  | VArr _ | VObj _ | VStrObj _ | VBoolObj _ => "object"
  | VFun _ => "function"
  end.

(** [x == null] *)
Definition nullish (x : value) : bool :=
  match x with
  | VUndef | VNull => true
  | _ => false
  end.

(** [Array.isArray(x)] *)
Definition Array_isArray (x : value) : bool :=
  match x with
  | VArr _ => true
  | _ => false
  end.

(** ** Strings and property keys *)

(** [s.endsWith(suffix)] *)
Definition endsWith (suffix s : string) : bool :=
  String.eqb
    (String.substring (String.length s - String.length suffix) (String.length suffix) s)
    suffix
  && (String.length suffix <=? String.length s).

(** [s.split('.')] *)
Fixpoint split_dot_aux (s : string) (cur : string) : list string :=
  match s with
  | EmptyString => [String.rev cur]
  | String c s' =>
      if Ascii.eqb c (Ascii.ascii_of_nat 46) then String.rev cur :: split_dot_aux s' EmptyString
      else split_dot_aux s' (String c cur)
  end.
Definition split_dot (s : string) : list string := split_dot_aux s EmptyString.

(** [ToString(x)]: array elements are joined with a comma, [null] and
    [undefined] elements printing as the empty string; a wrapper object
    prints as the value it wraps; a plain object prints as
    [[object Object]], which is what the inherited [toString] gives.
    This is [ToString] for safe integers and for objects that have no
    [toString] property of their own ([Spec.printable]): an own
    [toString] would be called, or make the conversion throw, and from
    [1e21] on numbers print in exponent form. *)
Fixpoint to_string (x : value) : string :=
  match x with
  | VUndef => "undefined"
  | VNull => "null"
  | VBool true => "true"
  | VBool false => "false"
  | VNum n => pretty n
  | VNaN => "NaN"
  | VStr s => s
  | VArr items =>
      (fix join (l : list value) : string :=
         match l with
         | [] => ""
         | e :: l' =>
             let s := if nullish e then "" else to_string e in
             match l' with
             | [] => s
             | _ :: _ => s +:+ "," +:+ join l'
             end
         end) items
  | VObj _ => "[object Object]"
  | VFun f => fn_source f
  | VStrObj s => s
  | VBoolObj true => "true"
  | VBoolObj false => "false"
  end.

(** [ToPropertyKey(x)]; there are no symbols in the model. *)
Definition to_property_key (x : value) : string := to_string x.

(** An array index is a canonical numeric string below [2^32 - 1]. *)
Fixpoint parse_digits (s : string) (acc : N) : N :=
  match s with
  | EmptyString => acc
  | String c s' => parse_digits s' (acc * 10 + (Ascii.N_of_ascii c - 48))%N
  end.

Definition array_index (k : string) : option N :=
  let n := parse_digits k 0 in
  if String.eqb (pretty n) k && (n <? 2 ^ 32 - 1)%N then Some n else None.

(** ** Objects: own properties in own-property order

    [OrdinaryOwnPropertyKeys] lists the array-index keys in ascending
    numeric order and then the other string keys in order of creation.
    The list that stands for an object is kept in that order: writing an
    existing property replaces its value in place, creating a property
    puts it where the enumeration will find it.  Keys are not repeated
    in the list of an object; writes keep it so ([obj_set_NoDup]). *)
Fixpoint obj_get (k : string) (o : object) : option value :=
  match o with
  | [] => None
  | (k', v) :: o' => if String.eqb k k' then Some v else obj_get k o'
  end.

Definition obj_has (k : string) (o : object) : bool :=
  match obj_get k o with
  | Some _ => true
  | None => false
  end.

Definition key_precedes (k k' : string) : bool :=
  match array_index k, array_index k' with
  | Some n, Some n' => (n <? n')%N
  | Some _, None => true
  | None, _ => false
  end.

Fixpoint obj_replace (k : string) (v : value) (o : object) : object :=
  match o with
  | [] => []
  | (k', v') :: o' =>
      if String.eqb k k' then (k, v) :: o' else (k', v') :: obj_replace k v o'
  end.

Fixpoint obj_create (k : string) (v : value) (o : object) : object :=
  match o with
  | [] => [(k, v)]
  | (k', v') :: o' =>
      if key_precedes k k' then (k, v) :: (k', v') :: o'
      else (k', v') :: obj_create k v o'
  end.

(** [o[k] = v] on a plain object.  An object that has no property
    [__proto__] of its own inherits the accessor of that name from
    [Object.prototype]: writing it creates no property.  (Given an
    object or [null], the accessor replaces the prototype of [o]; the
    model does not follow that, and what is stated of objects written
    this way leaves the key out.) *)
Definition obj_set (k : string) (v : value) (o : object) : object :=
  if obj_has k o then obj_replace k v o
  else if String.eqb k "__proto__" then o
  else obj_create k v o.

(** [Object.keys(o)] and [Object.values(o)] *)
Definition Object_keys (o : object) : list string := o.*1.
Definition Object_values (o : object) : list value := o.*2.

(** ** Property reads *)
Section WithEnvironment.
Context {env : Environment}.

(** The own property [k] of [x], if it has one: the properties of an
    object, the elements and the [length] of an array, the characters
    and the [length] of a string or of a String wrapper. *)
Definition get_own (x : value) (k : string) : option value :=
  match x with
  | VObj o => obj_get k o
  | VArr items =>
      if String.eqb k "length" then Some (VNum (Z.of_nat (length items)))
      else match array_index k with
           | Some n => items !! N.to_nat n
           | None => None
           end
  | VStr s | VStrObj s =>
      if String.eqb k "length" then Some (VNum (Z.of_nat (String.length s)))
      else match array_index k with
           | Some n =>
               match String.get (N.to_nat n) s with
               | Some c => Some (VStr (String c EmptyString))
               | None => None
               end
           | None => None
           end
  | _ => None
  end.

(** [x[k]] for [x] other than [null] and [undefined]: the own property,
    and what [x] inherits under that name when it has none. *)
Definition get_prop (x : value) (k : string) : value :=
  match get_own x k with
  | Some v => v
  | None => inherited x k
  end.

(** [x[k]] in general: reading a property of [null] or [undefined]
    throws. *)
Definition get_member (x : value) (k : value) : result value :=
  if nullish x then Throw (TypeError "Cannot read properties of undefined")
  else Ok (get_prop x (to_property_key k)).

(** [x?.[k]] *)
Definition get_optional (x : value) (k : string) : value :=
  if nullish x then VUndef else get_prop x k.

End WithEnvironment.

(** The keys a [for (const i in x)] loop visits: the enumerable
    properties, which are own ones (the built-in prototypes have no
    enumerable member). *)
Definition for_in_keys (x : value) : list string :=
  match x with
  | VObj o => Object_keys o
  | VArr items => pretty <$> seq 0 (length items)
  | VStr s | VStrObj s => pretty <$> seq 0 (String.length s)
  | _ => []
  end.

(** ** Methods and the built-in [Set] constructor

    A method runs on the receiver's state; it returns or throws, and
    leaves a state behind either way. *)
Definition method (S A : Type) : Type := S → result A * S.

(** The elements an iterable yields: those of an array, the characters
    of a string or of a String wrapper.  The other values of the model
    (booleans, numbers, plain objects, functions, Boolean wrappers) are
    not iterable. *)
Definition iterate (iterable : value) : result (list value) :=
  match iterable with
  | VArr items => Ok items
  | VStr s | VStrObj s =>
      Ok ((λ c, VStr (String c EmptyString)) <$> String.list_ascii_of_string s)
  | _ => Throw (TypeError "is not iterable")
  end.

(** [Set(iterable)] run on the object [set] it has just created
    (ECMAScript, Set ( iterable )).  For [null] and [undefined] the empty
    set is returned as it is.  Otherwise the constructor reads the
    property [add] of the new object, which is the method [adder] of the
    class under construction, and calls it with each element the
    iterable yields; a call that throws ends the construction. *)
Fixpoint add_all {S : Type} (adder : list value → method S value)
    (items : list value) (set : S) : result S :=
  match items with
  | [] => Ok set
  | next :: items' =>
      match adder [next] set with
      | (Ok _, set') => add_all adder items' set'
      | (Throw e, _) => Throw e
      end
  end.

Definition Set_constructor {S : Type} (adder : list value → method S value)
    (iterable : value) (set : S) : result S :=
  if nullish iterable then Ok set
  else
    do items <- iterate iterable;
    add_all adder items set.

(** ** Numbers

    [ToNumber] on numbers, booleans, [null] and [undefined]; [None]
    stands for [NaN].  Strings and objects are not parsed: the model
    takes them to [NaN]. *)
Definition to_number (x : value) : option Z :=
  match x with
  | VNum n => Some n
  | VBool true | VBoolObj true => Some 1%Z
  | VBool false | VBoolObj false | VNull => Some 0%Z
  | _ => None
  end.

(** [ToInt32] and [ToUint32]: the value modulo [2^32], read as a signed
    or as an unsigned 32-bit integer; and the operators [x << k] and
    [x ^ y], which work on [ToInt32] of their operands. *)
Definition ToInt32 (x : Z) : Z := ((x + 2 ^ 31) mod 2 ^ 32 - 2 ^ 31)%Z.
Definition ToUint32 (x : Z) : Z := (x mod 2 ^ 32)%Z.
Definition shift_left (x k : Z) : Z := ToInt32 (Z.shiftl (ToInt32 x) k).
Definition bit_xor (x y : Z) : Z := ToInt32 (Z.lxor (ToInt32 x) (ToInt32 y)).

(** [s.charCodeAt(i)] for the characters of a string, in order. *)
Definition char_codes (s : string) : list Z :=
  (λ c, Z.of_nat (Ascii.nat_of_ascii c)) <$> String.list_ascii_of_string s.

(** [paths.includes(key)] for a string [key]: an element is the key when
    it is that very string. *)
Definition includes_string (paths : list value) (key : string) : bool :=
  existsb (λ p, match p with VStr s => String.eqb s key | _ => false end) paths.

(** [arr.filter(cb)] and [arr.find(cb)], the callback being given the
    element and its index ([i] is the index of the first element of
    [items]). *)
Fixpoint Array_filter (cb : value → nat → value) (items : list value) (i : nat)
    : list value :=
  match items with
  | [] => []
  | x :: items' =>
      if truthy (cb x i) then x :: Array_filter cb items' (S i)
      else Array_filter cb items' (S i)
  end.

Fixpoint Array_find (cb : value → nat → value) (items : list value) (i : nat)
    : value :=
  match items with
  | [] => VUndef
  | x :: items' => if truthy (cb x i) then x else Array_find cb items' (S i)
  end.

(** [arr.map(cb)] for a callback that may throw. *)
Fixpoint Array_map (cb : value → nat → result value) (items : list value) (i : nat)
    : result (list value) :=
  match items with
  | [] => Ok []
  | x :: items' =>
      do y <- cb x i;
      do ys <- Array_map cb items' (S i);
      Ok (y :: ys)
  end.

End JS.

(* ===================================================================== *)
(** * [src/globals/index.ts] *)
(* ===================================================================== *)
Module Globals.
Import JS.
Section WithEnvironment.
Context {env : Environment}.

(** [str(obj)]: [obj.toString()], or the empty string for [null] and
    [undefined].  The method called is the inherited one: for an object
    with a [toString] property of its own the call runs that property,
    or throws when it is no function ([Spec.printable] excludes it). *)
Definition str (obj : value) : string :=
  if negb (nullish obj) then to_string obj else "".

(** [isFunc(x)]: [x?.constructor === Function], which holds of the
    function values and of no other value of the model. *)
Definition isFunc (x : value) : bool :=
  match x with
  | VFun _ => true
  | _ => false
  end.

(** [isArray(x)] *)
Definition isArray (x : value) : bool := Array_isArray x.

(** [value instanceof C] for the classes [type] asks about.  The
    instances of [Function] are the function values, of [Array] the
    arrays; no value of the model is a [Promise]. *)
Definition instanceof_String (x : value) : bool :=
  match x with VStrObj _ => true | _ => false end.
Definition instanceof_Boolean (x : value) : bool :=
  match x with VBoolObj _ => true | _ => false end.
Definition instanceof_Function (x : value) : bool :=
  match x with VFun _ => true | _ => false end.
Definition instanceof_Array (x : value) : bool :=
  match x with VArr _ => true | _ => false end.
Definition instanceof_Promise (x : value) : bool := false.

(** [value[Symbol.toStringTag]]: the values of the model have no
    property keyed by a symbol, and the prototypes of those whose
    [typeof] is ['object'] (plain objects, arrays, wrapper objects) have
    none of this name. *)
Definition toStringTag (x : value) : option string := None.

(** [type(value)] *)
Definition type (value : value) : string :=
  let result := typeof value in
  if String.eqb result "object" then
    if truthy value then
      if instanceof_String value then "string"
      else if instanceof_Boolean value then "boolean"
      else if instanceof_Function value then "function"
      else if instanceof_Array value then "array"
      else
        match toStringTag value with
        | Some tag => tag
        | None =>
            let className := str value in
            if String.eqb className "[object Window]" then "object"
            else if endsWith "Array]" className || Array_isArray value then "array"
            else if endsWith "Function]" className
                    || String.eqb (typeof (get_prop value "call")) "function"
            then "function"
            else if String.eqb className "[object Promise]" || instanceof_Promise value
            then "Promise"
            else result
        end
    else "null"
  else if String.eqb result "function"
          && String.eqb (typeof (get_prop value "call")) "undefined"
  then "object"
  else if (match value with VNaN => true | _ => false end) (* Number.isNaN *)
  then "NaN"
  else result.

Definition isBool (x : value) : bool := String.eqb (type x) "boolean".
Definition isObject (x : value) : bool :=
  String.eqb (typeof x) "object" && String.eqb (type x) "object".
Definition isString (x : value) : bool := String.eqb (type x) "string".
Definition isNumber (x : value) : bool := String.eqb (type x) "number".
Definition isNull (x : value) : bool := nullish x.

(** [get(key, obj, value)]: follow the path [key] from [obj]; any
    failure on the way, or an [undefined] at the end, gives the default
    [val]. *)
Fixpoint walk (res : value) (paths : list value) : result value :=
  match paths with
  | [] => Ok res
  | k :: paths' => do res <- get_member res k; walk res paths'
  end.

Definition get (key obj val : value) : value :=
  if nullish obj then val
  else
    let paths := match key with VArr ks => ks | _ => [key] end in
    let paths := match key with VStr s => VStr <$> split_dot s | _ => paths end in
    match walk obj paths with
    | Ok VUndef => val
    | Ok res => res
    | Throw _ => val
    end.

(** [hashCode(str)]: for each character, [hval ^= code] and then
    [hval += (hval << 1) + (hval << 4) + (hval << 7) + (hval << 8) +
    (hval << 24)]; at the end [hval >>> 0].  The sum is a sum of numbers,
    not of 32-bit integers: it is the next [^=] that brings it back. *)
Fixpoint hashCode_loop (codes : list Z) (hval : Z) : Z :=
  match codes with
  | [] => hval
  | code :: codes' =>
      let hval := bit_xor hval code in
      let hval :=
        (hval + (shift_left hval 1 + shift_left hval 4 + shift_left hval 7
                 + shift_left hval 8 + shift_left hval 24))%Z in
      hashCode_loop codes' hval
  end.

Definition hashCode (str : string) : Z :=
  let FNV1_32A_INIT := 0x811c9dc5%Z in
  ToUint32 (hashCode_loop (char_codes str) FNV1_32A_INIT).

(** [obj[key](...args)] *)
Definition invoke (obj key : value) (args : list value) : result value :=
  do m <- get_member obj key;
  match m with
  | VFun f => Ok (call_fn f obj args)
  | _ => Throw (TypeError "is not a function")
  end.

(** [call(obj, key, ...args)] *)
Definition call (obj key : value) (args : list value) : result value :=
  if isFunc (get key obj VUndef) then invoke obj key args
  else Ok VUndef.

(** [len(value)] *)
Definition len (val : value) : value :=
  if nullish val then VUndef
  else
    match get_prop val "length" with
    | VUndef =>
        match get_prop val "size" with
        | VFun f => call_fn f val []
        | _ =>
            if isObject val then
              VNum (Z.of_nat (length (for_in_keys val)))
            else VUndef
        end
    | n => n
    end.

(** [isEmpty(x)]: [len(x) === 0 ? true : !x] *)
Definition isEmpty (x : value) : bool :=
  match len x with
  | VNum 0 => true
  | _ => negb (truthy x)
  end.

End WithEnvironment.
End Globals.

(* ===================================================================== *)
(** * [operators.js] *)
(* ===================================================================== *)
Module Operators.
Import JS.

(** Modelled from the spec: [id] of [operators.js], which is not among
    the sources; the specification has [id(x) -> x], the default key
    function of [uniq]. *)
Definition id (x : value) : value := x.

End Operators.

(* ===================================================================== *)
(** * [src/collections.ts] *)
(* ===================================================================== *)
Module Collections.
Import JS Globals.

(** ** [Collection]: the abstract base class

    A class is the table of its methods; a subclass overrides entries of
    the table it inherits. *)

Module Collection.
Record class (S : Type) : Type := Class {
  next : method S value;
  add : value → method S value;
  contains : value → method S value;
  size : method S value;
  remove : value → method S value;
  pop : value → method S value;
  clear : method S value
}.
Arguments Class {S}.
Arguments next {S}.
Arguments add {S}.
Arguments contains {S}.
Arguments size {S}.
Arguments remove {S}.
Arguments pop {S}.
Arguments clear {S}.

(** The bodies written in [abstract class Collection]. *)
Definition base {S : Type} : class S := {|
  next := λ this, (Ok VUndef, this);
  add := λ item this, (Ok VUndef, this);
  contains := λ item this, (Ok (VBool false), this);
  size := λ this, (Throw NotImplementedError, this);
  remove := λ x this, (Ok VUndef, this);
  pop := λ i this, (Ok VUndef, this);
  clear := λ this, (Ok VUndef, this)
|}.
End Collection.

(** ** [FrozenSet]

    The object is a [Set]: its elements live in the internal slot
    [[SetData]], in insertion order.  [Object.freeze] makes the object
    non-extensible and leaves the slot alone. *)
Module FrozenSet.
Record t : Type := Obj { SetData : list value; extensible : bool }.

Definition add (args : list value) : method t value :=
  λ this, (Throw (TypeError "FrozenSet cannot be modified."), this).

Definition delete (args : list value) : method t value :=
  λ this, (Throw (TypeError "FrozenSet cannot be modified."), this).

Definition clear (args : list value) : method t value :=
  λ this, (Throw (TypeError "FrozenSet cannot be modified."), this).

Definition freeze (this : t) : t :=
  {| SetData := SetData this; extensible := false |}.

(** [super(iterable)]: the [Set] constructor, run for a new [FrozenSet].
    The method [add] it finds on the new object is the one above. *)
Definition super (iterable : value) : result t :=
  Set_constructor add iterable {| SetData := []; extensible := true |}.

(** [new FrozenSet(iterable)] *)
Definition new (iterable : value) : result t :=
  do this <- super iterable;
  Ok (freeze this).

(** The elements the set reports ([has], [size], iteration). *)
Definition members (this : t) : list value := SetData this.

(** A caller that tries one mutating call after the other, catching what
    each throws: [try { s.add(x) } catch (e) { ... }] and so on.  The
    outcomes are collected in order, next to the set as it is left. *)
Inductive mutation : Type :=
| Add (args : list value)
| Delete (args : list value)
| Clear (args : list value).

Definition mutate (m : mutation) : method t value :=
  match m with
  | Add args => add args
  | Delete args => delete args
  | Clear args => clear args
  end.

Fixpoint attempts (ms : list mutation) (this : t) : list (result value) * t :=
  match ms with
  | [] => ([], this)
  | m :: ms' =>
      let '(outcome, this) := mutate m this in
      let '(outcomes, this) := attempts ms' this in
      (outcome :: outcomes, this)
  end.

(** The kind of failure the specification calls FrozenMutationError:
    the error all three methods throw. *)
Definition FrozenMutationError : error :=
  TypeError "FrozenSet cannot be modified.".
End FrozenSet.

Section WithEnvironment.
Context {env : Environment}.

(** ** [flatten], [flattenArray], [flattenObj] *)

(** [flattenObj(o, prefix, result, keepNull)].  [result] is one object,
    written by every recursive call: it is threaded through the loop.
    The loop [for (const i in o)] with [o[i]] visits the elements of an
    array with their indices, and the own properties of an object, one
    after the other ([for_in_reads_array], [for_in_reads_object]). *)
Fixpoint flattenObj (o : value) (prefix : string) (result : object)
    (keepNull : bool) {struct o} : object :=
  if isString o || isNumber o || isBool o || (keepNull && isNull o) then
    obj_set prefix o result
  else if isArray o || isObject o then
    match o with
    | VArr items =>
        (fix loop (items : list value) (i : nat) (result : object) : object :=
           match items with
           | [] => result
           | o_i :: items' =>
               let pref := prefix +:+ "[" +:+ pretty i +:+ "]" in
               loop items' (S i) (flattenObj o_i pref result keepNull)
           end) items 0 result
    | VObj props =>
        (fix loop (props : list (string * value)) (result : object) : object :=
           match props with
           | [] => result
           | (i, o_i) :: props' =>
               let pref :=
                 if isEmpty (VStr prefix) then i else prefix +:+ "." +:+ i in
               loop props' (flattenObj o_i pref result keepNull)
           end) props result
    | _ => result
    end
  else result.

(** [typeof depth === 'number' ? depth - 1 : depth] *)
Definition next_depth (depth : value) : value :=
  match depth with
  | VNum n => VNum (n - 1)
  | VNaN => VNaN
  | _ => depth
  end.

(** [arr.splice(i, 1, ...value)] *)
Definition splice1 (arr : list value) (i : nat) (items : list value) : list value :=
  take i arr ++ items ++ drop (S i) arr.

(** The loop of [flattenArray], from index [i] on.  [arr] is the array
    being rewritten in place.  The call [flatten(value, depth')] on a
    nested array returns it as it is when [depth'] is falsy and runs this
    loop on it from index [0] otherwise.  [fuel] bounds the number of
    iterations, nested ones included. *)
Fixpoint flattenArray_loop (fuel : nat) (depth : value) (arr : list value)
    (i : nat) : option (list value) :=
  match fuel with
  | 0 => None
  | S fuel =>
      match arr !! i with
      | None => Some arr
      | Some (VArr value) =>
          let depth' := next_depth depth in
          let flattened :=
            if negb (truthy depth') then Some value
            else flattenArray_loop fuel depth' value 0 in
          match flattened with
          | Some value => flattenArray_loop fuel depth (splice1 arr i value) (S i)
          | None => None
          end
      | Some _ => flattenArray_loop fuel depth arr (S i)
      end
  end.

(** The number of iterations available to a run on [arr]: one more than
    the number of elements of [arr] at any depth, each nested array
    counted once more for itself. *)
Fixpoint weight (x : value) : nat :=
  match x with
  | VArr items =>
      S ((fix sum (l : list value) : nat :=
            match l with
            | [] => 0
            | e :: l' => S (weight e) + sum l'
            end) items)
  | _ => 0
  end.

Definition weights (l : list value) : nat :=
  foldr (λ e n, S (weight e) + n) 0 l.

(** The parameter [depth = 1]: an argument that is [undefined], or
    left out, stands for [1]. *)
Definition depth_or_default (depth : value) : value :=
  match depth with
  | VUndef => VNum 1
  | _ => depth
  end.

(** [flattenArray(arr, depth)]: the final contents of [arr], which is
    also what the call returns.  The loop returns within the bound given
    here, so the default of [default] is never used. *)
Definition flattenArray (arr : list value) (depth : value) : list value :=
  let depth := depth_or_default depth in
  if negb (truthy depth) then arr
  else default arr (flattenArray_loop (S (weights arr)) depth arr 0).

(** [flatten(arr, depth)] *)
Definition flatten (arr : value) (depth : value) : value :=
  let depth := depth_or_default depth in
  if negb (truthy depth) then arr
  else
    match arr with
    | VArr items => VArr (flattenArray items depth)
    | _ => if isObject arr then VObj (flattenObj arr "" [] false) else arr
    end.

(** ** [pick] *)
Definition pick (obj : value) (paths : value) : object :=
  if nullish obj then []
  else
    match paths with
    | VArr keys =>
        foldl (λ result key,
                 obj_set (to_property_key key) (get_prop obj (to_property_key key)) result)
              [] keys
    | VFun f =>
        foldl (λ result key,
                 let value := get_prop obj key in
                 if truthy (call_fn f VUndef [value; VStr key])
                 then obj_set key value result else result)
              [] (for_in_keys obj)
    | _ => []
    end.

(** ** [omit] *)
Definition omit (obj : value) (paths : value) : object :=
  foldl (λ result key,
           let value := get_prop obj key in
           match paths with
           | VArr items =>
               if negb (includes_string items key) then obj_set key value result
               else result
           | VFun f =>
               if negb (truthy (call_fn f VUndef [value; VStr key]))
               then obj_set key value result else result
           | _ => result
           end)
        [] (for_in_keys obj).

(** ** [clone], [cloneArray]

    [deep] stands for the truth value of the argument.  The loop
    [for (const key of keys(obj))] with [obj[key]] visits the own
    properties of [obj] one after the other.  [list(arr)] is
    [Array.from(arr)], a new array with the elements of [arr]. *)
Fixpoint clone (obj : value) (deep : bool) {struct obj} : value :=
  match obj with
  | VArr arr =>
      if negb deep then VArr arr
      else
        VArr ((fix map_clone (arr : list value) : list value :=
                 match arr with
                 | [] => []
                 | item :: arr' => clone item deep :: map_clone arr'
                 end) arr)
  | VObj props =>
      if isObject obj then
        if isFunc (get_prop obj "clone") then
          match get_prop obj "clone" with
          | VFun f => call_fn f obj []
          | _ => VUndef
          end
        else
          VObj ((fix copy_keys (props : list (string * value)) (copy : object)
                   : object :=
                   match props with
                   | [] => copy
                   | (key, obj_key) :: props' =>
                       copy_keys props'
                         (obj_set key (if deep then clone obj_key deep else obj_key)
                            copy)
                   end) props [])
      else obj
  | _ => obj
  end.

Definition cloneArray (arr : list value) (deep : bool) : list value :=
  if negb deep then arr
  else (λ item, clone item deep) <$> arr.

(** ** [contains], [index]

    [eq] is the equality oracle of [operators.js]. *)
Section Searching.
Variable eq : value → value → bool.

(** The scan [for (; start < length; start++)] of [index], [n] being the
    number of positions left. *)
Fixpoint index_scan (obj x : value) (n : nat) (start : Z) : value :=
  match n with
  | 0 => VNum (-1)
  | S n' =>
      if eq x (get_prop obj (to_property_key (VNum start))) then VNum start
      else index_scan obj x n' (start + 1)
  end.

Definition index (obj x : value) (start : Z) : result value :=
  do op <- call (VStr "indexOf") obj [x];
  if negb (nullish op) then Ok op
  else
    do op <- call (VStr "index") obj [x];
    if negb (nullish op) then Ok op
    else
      do length <- get_member obj (VStr "length");
      match to_number length with
      | None => Ok (VNum (-1))     (* every comparison with NaN fails *)
      | Some length =>
          let start := if (start <? 0)%Z then Z.max (start + length) 0 else start in
          match obj with
          | VStr s | VStrObj s =>    (* isString(obj) *)
              if (length <=? start)%Z then Ok (VNum (-1))
              else
                match String.index (Z.to_nat start) (to_string x) s with
                | Some i => Ok (VNum (Z.of_nat i))
                | None => Ok (VNum (-1))
                end
          | _ => Ok (index_scan obj x (Z.to_nat (length - start)) start)
          end
      end.

Definition contains (arr y : value) : result value :=
  do op <- call (VStr "contains") arr [y];
  if negb (nullish op) then Ok op
  else
    do i <- index arr y 0;
    Ok (VBool (match to_number i with Some n => (0 <=? n)%Z | None => false end)).
End Searching.

(** ** [uniq], [sortedUniq] *)

(** The value stored for the element [x]: [fn(x)] or [x[fn]].  The
    parameter is [fn = id]: an argument that is [undefined], or left
    out, stands for [id]. *)
Definition derived (fn x : value) : result value :=
  match fn with
  | VUndef => Ok (Operators.id x)
  | VFun f => Ok (call_fn f VUndef [x])
  | _ => get_member x fn
  end.

Fixpoint uniq_loop (fn : value) (arr : list value) (keys : object) : result object :=
  match arr with
  | [] => Ok keys
  | x :: arr' =>
      do d <- derived fn x;
      uniq_loop fn arr' (obj_set (to_property_key x) d keys)
  end.

Definition uniq (arr : list value) (fn : value) : result (list value) :=
  do keys <- uniq_loop fn arr [];
  Ok (Object_values keys).

(** [lst.sort(comparefn)]: [undefined] elements go last, the others are
    put in the order [comparefn] gives, equal ones staying as they were. *)
Section Sort.
Variable comp : value → value → value.

Definition after (x y : value) : bool :=
  match to_number (comp x y) with
  | Some v => (0 <? v)%Z
  | None => false
  end.

Fixpoint sort_insert (x : value) (sorted : list value) : list value :=
  match sorted with
  | [] => [x]
  | y :: sorted' => if after x y then y :: sort_insert x sorted' else x :: sorted
  end.

Definition is_undefined (x : value) : bool :=
  match x with VUndef => true | _ => false end.

Definition Array_sort (lst : list value) : list value :=
  foldr sort_insert [] (List.filter (λ x, negb (is_undefined x)) lst)
  ++ List.filter is_undefined lst.

Definition sortedUniq (arr : list value) (fn : value) : result (list value) :=
  do lst <- uniq arr fn;
  Ok (Array_sort lst).
End Sort.

End WithEnvironment.

(** ** The functions over arrays that take an iteratee

    [eq] is the equality oracle of [operators.js]. *)
Module Arrays.
Section WithEnvironment.
Context {env : Environment}.
Variable eq : value → value → bool.

(** *** [matches], [filter], [find], [findRight] *)

(** [matches(o)(x)] *)
Definition matches (o x : value) : bool :=
  forallb (λ key, eq (get_optional x key) (get_prop o key)) (for_in_keys o).

Definition filter (fn : value) (arr : value) : value :=
  match arr with
  | VArr items =>
      if isFunc fn then
        match fn with
        | VFun f =>
            VArr (Array_filter
                    (λ x i, call_fn f VUndef [x; VNum (Z.of_nat i); arr]) items 0)
        | _ => VUndef
        end
      else if isString fn then
        VArr (Array_filter (λ x _, get_optional x (to_property_key fn)) items 0)
      else if isObject fn then
        VArr (Array_filter (λ x _, VBool (matches fn x)) items 0)
      else VUndef
  | _ => VUndef
  end.

Definition find (fn : value) (arr : value) : value :=
  match arr with
  | VArr items =>
      if isFunc fn then
        match fn with
        | VFun f =>
            Array_find (λ x i, call_fn f VUndef [x; VNum (Z.of_nat i); arr]) items 0
        | _ => VUndef
        end
      else if isString fn then
        Array_find (λ x _, get_optional x (to_property_key fn)) items 0
      else if isObject fn then
        Array_find (λ x _, VBool (matches fn x)) items 0
      else VUndef
  | _ => VUndef
  end.

(** The loop of [findRight] runs from the last index down; [items] are
    the elements it has still to see, last first. *)
Fixpoint findRight_loop (fn : value) (items : list value) : value :=
  match items with
  | [] => VUndef
  | x :: items' =>
      if isFunc fn then
        match fn with
        | VFun f =>
            if truthy (call_fn f VUndef [x]) then x else findRight_loop fn items'
        | _ => findRight_loop fn items'
        end
      else if isString fn then
        if truthy (get_optional x (to_property_key fn)) then x
        else findRight_loop fn items'
      else if isObject fn then
        if matches fn x then x else findRight_loop fn items'
      else findRight_loop fn items'
  end.

Definition findRight (fn : value) (arr : value) : value :=
  match arr with
  | VArr items => findRight_loop fn (reverse items)
  | _ => VUndef
  end.

(** *** [map] *)
Definition map (fn : value) (arr : value) : result value :=
  match arr with
  | VArr items =>
      do ys <- Array_map
                 (λ x i,
                    match fn with
                    | VStr _ => get_member x fn
                    | VFun f => Ok (call_fn f VUndef [x; VNum (Z.of_nat i); arr])
                    | _ => Throw (TypeError "fn is not a function")
                    end)
                 items 0;
      Ok (VArr ys)
  | _ =>
      if isObject arr then
        do ys <- Array_map
                   (λ key _,
                      match fn with
                      | VFun f =>
                          Ok (call_fn f VUndef
                                [get_prop arr (to_property_key key); key; arr])
                      | _ => Throw (TypeError "fn is not a function")
                      end)
                   (VStr <$> for_in_keys arr) 0;
        Ok (VArr ys)
      else Ok VUndef
  end.

End WithEnvironment.
End Arrays.

End Collections.

(* ===================================================================== *)
(** * Sample callables and oracles *)
(* ===================================================================== *)
Module Samples.
Import JS.

Definition identity : func := Func 0 "x => x".
Definition always_true : func := Func 1 "() => true".

(** A built-in method, as a function value.  What the built-ins
    compute is not modelled: the sample has them return [undefined], and
    no example calls one. *)
Definition builtin (name : string) : value :=
  VFun (Func 2 ("function " +:+ name +:+ "() { [native code] }")).

(** The names of the members of the standard prototypes (ECMAScript
    2023, with the legacy members of its annex B). *)
Definition Object_prototype : list string :=
  ["constructor"; "__defineGetter__"; "__defineSetter__"; "hasOwnProperty";
   "__lookupGetter__"; "__lookupSetter__"; "isPrototypeOf";
   "propertyIsEnumerable"; "toString"; "valueOf"; "toLocaleString"].

Definition String_prototype : list string :=
  ["anchor"; "at"; "big"; "blink"; "bold"; "charAt"; "charCodeAt"; "codePointAt";
   "concat"; "endsWith"; "fixed"; "fontcolor"; "fontsize"; "includes"; "indexOf";
   "italics"; "lastIndexOf"; "link"; "localeCompare"; "match"; "matchAll";
   "normalize"; "padEnd"; "padStart"; "repeat"; "replace"; "replaceAll"; "search";
   "slice"; "small"; "split"; "startsWith"; "strike"; "sub"; "substr"; "substring";
   "sup"; "toLocaleLowerCase"; "toLocaleUpperCase"; "toLowerCase"; "toUpperCase";
   "trim"; "trimEnd"; "trimLeft"; "trimRight"; "trimStart"].

Definition Array_prototype : list string :=
  ["at"; "concat"; "copyWithin"; "entries"; "every"; "fill"; "filter"; "find";
   "findIndex"; "findLast"; "findLastIndex"; "flat"; "flatMap"; "forEach";
   "includes"; "indexOf"; "join"; "keys"; "lastIndexOf"; "map"; "pop"; "push";
   "reduce"; "reduceRight"; "reverse"; "shift"; "slice"; "some"; "sort"; "splice";
   "toReversed"; "toSorted"; "toSpliced"; "unshift"; "values"; "with"].

Definition Function_prototype : list string := ["apply"; "bind"; "call"].
Definition Number_prototype : list string :=
  ["toExponential"; "toFixed"; "toPrecision"].

(** The number of parameters of the two callables; the sample gives the
    built-ins none. *)
Definition arity (f : func) : Z :=
  match fn_id f with
  | 0 => 1
  | _ => 0
  end.

(** What a value inherits under the name [k]: the members of its own
    prototype and of [Object.prototype]; for a function also its
    [length] and [name].  Reading [__proto__] gives the prototype, shown
    as an object without enumerable properties. *)
Definition sample_inherited (x : value) (k : string) : value :=
  let among (names : list string) := existsb (String.eqb k) names in
  let members (names : list string) :=
    if among names || among Object_prototype then builtin k
    else if String.eqb k "__proto__" then VObj []
    else VUndef in
  match x with
  | VUndef | VNull => VUndef
  | VStr _ | VStrObj _ => members String_prototype
  | VArr _ => members Array_prototype
  | VNum _ | VNaN => members Number_prototype
  | VBool _ | VBoolObj _ | VObj _ => members []
  | VFun f =>
      if String.eqb k "length" then VNum (arity f)
      else if String.eqb k "name" then VStr ""
      else members Function_prototype
  end.

(** What the two callables above compute; any other handle returns
    [undefined]. *)
Definition sample_environment : Environment := {|
  call_fn := λ f this args,
    match fn_id f with
    | 0 => default VUndef (args !! 0)
    | 1 => VBool true
    | _ => VUndef
    end;
  inherited := sample_inherited
|}.

(** Modelled from the spec: [comp] of [operators.js], which is not among
    the sources.  It is the ordering oracle, a three-way comparison with
    results [-1], [0] and [1]; [tests/operators.spec.ts] has
    [comp(1, 1) === 0], [comp(2, 3) === -1] and [comp(4, 3) === 1].  On
    numbers and on strings it follows their order; other pairs of values
    compare as equal. *)
Definition comp (x y : value) : value :=
  match x, y with
  | VNum a, VNum b =>
      VNum (match (a ?= b)%Z with Lt => -1 | Eq => 0 | Gt => 1 end)
  | VStr a, VStr b =>
      VNum (match String.compare a b with Lt => -1 | Eq => 0 | Gt => 1 end)
  | _, _ => VNum 0
  end.

(** Modelled from the spec: [eq] of [operators.js], the equality oracle
    [index] scans with.  On primitive values it is taken to be strict
    equality; other pairs of values are taken to differ. *)
Definition eq (x y : value) : bool :=
  match x, y with
  | VUndef, VUndef | VNull, VNull => true
  | VBool a, VBool b => Bool.eqb a b
  | VNum a, VNum b => (a =? b)%Z
  | VStr a, VStr b => String.eqb a b
  | _, _ => false
  end.
End Samples.

(* ===================================================================== *)
(** * What the properties are stated with *)
(* ===================================================================== *)
Module Spec.
Import JS Globals Collections.
Section WithEnvironment.
Context {env : Environment}.

(** ** Values the model prints as the host does

    A safe integer, or a value in which no object, at any depth of
    nested arrays, has a [toString] property of its own: [to_string] is
    [ToString] on these, and [to_property_key] is [ToPropertyKey]. *)
Fixpoint printable (x : value) : bool :=
  match x with
  | VNum n => (Z.abs n <? 2 ^ 53)%Z
  | VArr items =>
      (fix all (l : list value) : bool :=
         match l with
         | [] => true
         | e :: l' => printable e && all l'
         end) items
  | VObj props => negb (obj_has "toString" props)
  | _ => true
  end.

(** ** Leaves of a flattened mapping *)

(** A value [flattenObj] may store: a string, a number or a boolean, be
    it a primitive or, for strings and booleans, a wrapper object, and
    [null] or [undefined] when [keepNull] is set. *)
Definition leaf (keepNull : bool) (v : value) : Prop :=
  match v with
  | VStr _ | VNum _ | VBool _ | VStrObj _ | VBoolObj _ => True
  | VUndef | VNull => keepNull = true
  | VNaN | VArr _ | VObj _ | VFun _ => False
  end.

(** ** One level of flattening *)

(** What one level of flattening puts in the place of an element. *)
Definition contents (x : value) : list value :=
  match x with
  | VArr items => items
  | _ => [x]
  end.

Definition spread (A : list value) : list value := concat (contents <$> A).

(** An element that is no array, or an array that is not empty and has
    no array among its elements. *)
Definition nested_once (x : value) : Prop :=
  match x with
  | VArr [] => False
  | VArr items => Forall (λ y, isArray y = false) items
  | _ => True
  end.

(** [x] is found in [l], at the top or inside nested arrays; and two or
    more levels deep, that is inside an array that is an element of
    [l]. *)
Inductive within (x : value) : list value → Prop :=
| within_top (l : list value) : x ∈ l → within x l
| within_nested (items l : list value) : VArr items ∈ l → within x items → within x l.

Definition nested_deeper (x : value) (l : list value) : Prop :=
  ∃ items, VArr items ∈ l ∧ within x items.

(** [x] is an empty array or has one inside its nested arrays. *)
Fixpoint has_empty (x : value) : bool :=
  match x with
  | VArr [] => true
  | VArr items =>
      (fix any (l : list value) : bool :=
         match l with
         | [] => false
         | e :: l' => has_empty e || any l'
         end) items
  | _ => false
  end.

(** What the depth budget asks for: an array met with budget [d] is
    replaced by its elements flattened with budget [d - 1], and budget
    [0] leaves everything as it is. *)
Fixpoint flat (d : nat) (arr : list value) : list value :=
  match d with
  | 0 => arr
  | S d' =>
      concat ((λ x, match x with VArr items => flat d' items | _ => [x] end) <$> arr)
  end.

(** ** The mapping behind [uniq] *)

(** The derived key of an element, as the specification words it:
    [fn(x)] if [fn] is a function, else [x[fn]] if [fn] is a property
    name; [fn] is the identity when it is not given.  Reading a property
    of [null] or [undefined] fails. *)
Definition derived_key (fn x : value) : result value :=
  match fn with
  | VUndef => Ok x
  | VFun f => Ok (call_fn f VUndef [x])
  | name =>
      match x with
      | VUndef | VNull => Throw (TypeError "Cannot read properties of undefined")
      | _ => Ok (get_prop x (to_string name))
      end
  end.

(** The derived keys of all elements, in order; the first failure is
    the failure of the whole. *)
Fixpoint derived_all (fn : value) (arr : list value) : result (list value) :=
  match arr with
  | [] => Ok []
  | x :: arr' =>
      do d <- derived_key fn x;
      do ds <- derived_all fn arr';
      Ok (d :: ds)
  end.

(** The mapping a sequence of writes builds: the last write to a key is
    the one that stays. *)
Definition last_write_wins (writes : list (string * value)) : gmap string value :=
  foldl (λ m kv, <[kv.1 := kv.2]> m) ∅ writes.

(** The order in which an object lists keys written in the order [ks]:
    array indices first, in ascending order, then the other keys in the
    order in which each was first written. *)
Definition first_occurrences (ks : list string) : list string :=
  reverse (remove_dups (reverse ks)).

Definition own_property_order (ks : list string) : list string :=
  (pretty <$> merge_sort N.le (remove_dups (omap array_index ks)))
  ++ first_occurrences (filter (λ k, array_index k = None) ks).

(** [uniq] as the specification words it. *)
Definition uniq_spec (arr : list value) (fn : value) : result (list value) :=
  do ds <- derived_all fn arr;
  let ks := to_property_key <$> arr in
  let m := last_write_wins (zip ks ds) in
  Ok ((λ k, default VUndef (m !! k)) <$> own_property_order ks).

(** ** Auxiliary functions of the proofs *)

(** One turn of the loop of [pick] over a list of keys. *)
Definition pick_step (obj : value) (result : object) (key : value) : object :=
  obj_set (to_property_key key) (get_prop obj (to_property_key key)) result.

(** One write [o[k] = v]. *)
Definition write (o : object) (kv : string * value) : object :=
  obj_set kv.1 kv.2 o.

(** [obj_create] on the keys alone, and the place a new index takes
    among indices in ascending order. *)
Fixpoint key_create (k : string) (ks : list string) : list string :=
  match ks with
  | [] => [k]
  | k' :: ks' => if key_precedes k k' then k :: k' :: ks' else k' :: key_create k ks'
  end.

Fixpoint idx_insert (n : N) (idx : list N) : list N :=
  match idx with
  | [] => [n]
  | m :: idx' => if (n <? m)%N then n :: m :: idx' else m :: idx_insert n idx'
  end.

(** ** Keys without a dot *)
Fixpoint no_dot (s : string) : bool :=
  match s with
  | EmptyString => true
  | String c s' => negb (Ascii.eqb c (Ascii.ascii_of_nat 46)) && no_dot s'
  end.

(** ** The FNV-1a hash, 32 bits wide

    Each character is xored into the hash, which is then multiplied by
    the FNV prime [16777619], modulo [2^32]. *)
Definition fnv1a (str : string) : Z :=
  foldl (λ h code, (Z.lxor h code * 16777619) mod 2 ^ 32)%Z 2166136261%Z
        (char_codes str).

(** ** Keys that make properties

    A write under the key [__proto__] makes no property; the keys of a
    list are all ordinary when that key is not among them. *)
Definition ordinary_keys (ks : list string) : bool :=
  negb (existsb (String.eqb "__proto__") ks).

(** ** Objects as the host holds them

    The keys of an object in own-property order: no key comes twice, and
    no key comes after one it has to precede. *)
Fixpoint in_own_order (ks : list string) : bool :=
  match ks with
  | [] => true
  | k :: ks' =>
      forallb (λ k', negb (String.eqb k' k) && negb (key_precedes k' k)) ks'
      && in_own_order ks'
  end.

(** A value all of whose objects, at any depth, are in own-property
    order, have no property [__proto__] or [toString] of their own and
    have no method [clone]. *)
Fixpoint plain (x : value) : bool :=
  match x with
  | VArr items =>
      (fix all (l : list value) : bool :=
         match l with
         | [] => true
         | e :: l' => plain e && all l'
         end) items
  | VObj props =>
      in_own_order (Object_keys props)
      && negb (obj_has "__proto__" props)
      && negb (obj_has "toString" props)
      && negb (isFunc (get_prop x "clone"))
      && (fix all (l : list (string * value)) : bool :=
            match l with
            | [] => true
            | kv :: l' => plain kv.2 && all l'
            end) props
  | _ => true
  end.

(** A value without arrays all of whose objects, at any depth, are in
    own-property order and have keys that are not empty and hold no
    dot: its leaves are named by dotted paths. *)
Fixpoint dotted (x : value) : bool :=
  match x with
  | VArr _ => false
  | VObj props =>
      in_own_order (Object_keys props)
      && (fix all (l : list (string * value)) : bool :=
            match l with
            | [] => true
            | kv :: l' =>
                negb (String.eqb kv.1 "") && no_dot kv.1 && dotted kv.2 && all l'
            end) props
  | _ => true
  end.


(** ** Delegation

    The test [call] makes before it calls anything, as [index] and
    [contains] have it made: [isFunc(get(operand, name))], in which the
    operand is read as a path into the string [name]. *)
Definition delegates (name : string) (operand : value) : bool :=
  isFunc (get operand (VStr name) VUndef).

(** ** Complete flattening *)

(** The elements of an array that are no arrays, at any depth, from left
    to right. *)
Fixpoint leaves (x : value) : list value :=
  match x with
  | VArr items =>
      (fix go (l : list value) : list value :=
         match l with
         | [] => []
         | e :: l' => leaves e ++ go l'
         end) items
  | _ => [x]
  end.

(** A depth that never runs out: [true], a negative number, or any other
    truthy value that is no number. *)
Definition endless (depth : value) : bool :=
  truthy depth && match depth with VNum n => (n <? 0)%Z | _ => true end.

End WithEnvironment.
End Spec.

(* ===================================================================== *)
(** * Properties *)
(* ===================================================================== *)
Import JS Globals Collections Spec.

(** ** Own properties: reading after writing *)
Section ObjectLemmas.
Implicit Types (o : object) (k : string) (v : value).

Lemma obj_has_keys k o : obj_has k o = true ↔ k ∈ Object_keys o.
Proof.
  unfold obj_has, Object_keys. induction o as [|[k' v'] o IH]; csimpl.
  - split; [discriminate | inversion 1].
  - destruct (String.eqb_spec k k') as [->|Hne].
    + split; [intros _; left | done].
    + rewrite IH. split; [by right | ].
      intros Hin. apply elem_of_cons in Hin as [?|?]; [done | assumption].
Qed.

Lemma obj_has_false k o : obj_has k o = false ↔ k ∉ Object_keys o.
Proof.
  rewrite <- obj_has_keys. destruct (obj_has k o); split; done.
Qed.

Lemma obj_get_None k o : obj_get k o = None ↔ k ∉ Object_keys o.
Proof.
  rewrite <- obj_has_false. unfold obj_has.
  destruct (obj_get k o); split; done.
Qed.

Lemma obj_replace_keys k v o : Object_keys (obj_replace k v o) = Object_keys o.
Proof.
  unfold Object_keys. induction o as [|[k' v'] o IH]; csimpl; [done|].
  destruct (String.eqb_spec k k') as [->|Hne]; csimpl; [done|].
  by rewrite IH.
Qed.

Lemma obj_create_keys_perm k v o : Object_keys (obj_create k v o) ≡ₚ k :: Object_keys o.
Proof.
  unfold Object_keys. induction o as [|[k' v'] o IH]; csimpl; [done|].
  destruct (key_precedes k k'); csimpl; [done|].
  rewrite IH. apply Permutation_swap.
Qed.

(** A write under a key other than [__proto__] replaces the property or
    creates it; a write under [__proto__] creates none. *)
Lemma obj_set_other k v o :
  k ≠ "__proto__" →
  obj_set k v o = if obj_has k o then obj_replace k v o else obj_create k v o.
Proof.
  intros Hk. unfold obj_set. apply String.eqb_neq in Hk. by rewrite Hk.
Qed.

Lemma obj_set_proto v o :
  "__proto__" ∉ Object_keys o → obj_set "__proto__" v o = o.
Proof. intros Hk. apply obj_has_false in Hk. unfold obj_set. by rewrite Hk. Qed.

Lemma obj_set_elem k v o k' :
  k ≠ "__proto__" →
  k' ∈ Object_keys (obj_set k v o) ↔ k' = k ∨ k' ∈ Object_keys o.
Proof.
  intros Hk. rewrite obj_set_other by done. destruct (obj_has k o) eqn:Hhas.
  - rewrite obj_replace_keys. apply obj_has_keys in Hhas.
    split; [by right | intros [->|?]; done].
  - rewrite obj_create_keys_perm. apply elem_of_cons.
Qed.

Lemma obj_set_elem_inv k v o k' :
  k' ∈ Object_keys (obj_set k v o) → k' = k ∨ k' ∈ Object_keys o.
Proof.
  unfold obj_set. destruct (obj_has k o) eqn:Hhas.
  - rewrite obj_replace_keys. by right.
  - destruct (String.eqb k "__proto__"); [by right|].
    rewrite obj_create_keys_perm. apply elem_of_cons.
Qed.

Lemma obj_set_NoDup k v o : NoDup (Object_keys o) → NoDup (Object_keys (obj_set k v o)).
Proof.
  intros Hnd. unfold obj_set. destruct (obj_has k o) eqn:Hhas.
  - by rewrite obj_replace_keys.
  - destruct (String.eqb k "__proto__"); [done|].
    rewrite obj_create_keys_perm. apply obj_has_false in Hhas.
    by constructor.
Qed.

Lemma obj_get_replace_eq k v o :
  k ∈ Object_keys o → obj_get k (obj_replace k v o) = Some v.
Proof.
  unfold Object_keys. induction o as [|[k' v'] o IH]; csimpl; [inversion 1|].
  intros Hin. destruct (String.eqb_spec k k') as [->|Hne]; csimpl.
  - by rewrite String.eqb_refl.
  - apply String.eqb_neq in Hne as Hne'. rewrite Hne'. apply IH.
    apply elem_of_cons in Hin as [?|?]; done.
Qed.

Lemma obj_get_replace_ne k v o k' :
  k ≠ k' → obj_get k' (obj_replace k v o) = obj_get k' o.
Proof.
  intros Hne. induction o as [|[k0 v0] o IH]; csimpl; [done|].
  destruct (String.eqb_spec k k0) as [->|Hne0]; csimpl.
  - by destruct (String.eqb_spec k' k0) as [->|?].
  - by rewrite IH.
Qed.

Lemma obj_get_create_eq k v o :
  k ∉ Object_keys o → obj_get k (obj_create k v o) = Some v.
Proof.
  unfold Object_keys. induction o as [|[k' v'] o IH]; csimpl; intros Hnin.
  - by rewrite String.eqb_refl.
  - apply not_elem_of_cons in Hnin as [Hne Hnin].
    destruct (key_precedes k k'); csimpl.
    + by rewrite String.eqb_refl.
    + apply String.eqb_neq in Hne. rewrite Hne. by apply IH.
Qed.

Lemma obj_get_create_ne k v o k' :
  k ≠ k' → obj_get k' (obj_create k v o) = obj_get k' o.
Proof.
  intros Hne. apply not_eq_sym, String.eqb_neq in Hne.
  induction o as [|[k0 v0] o IH]; csimpl.
  - by rewrite Hne.
  - destruct (key_precedes k k0); csimpl.
    + by rewrite Hne.
    + by rewrite IH.
Qed.

Lemma obj_get_set_eq k v o :
  k ≠ "__proto__" → obj_get k (obj_set k v o) = Some v.
Proof.
  intros Hk. rewrite obj_set_other by done. destruct (obj_has k o) eqn:Hhas.
  - apply obj_get_replace_eq. by apply obj_has_keys.
  - apply obj_get_create_eq. by apply obj_has_false.
Qed.

Lemma obj_get_set_ne k v o k' : k ≠ k' → obj_get k' (obj_set k v o) = obj_get k' o.
Proof.
  intros Hne. unfold obj_set. destruct (obj_has k o).
  - by apply obj_get_replace_ne.
  - destruct (String.eqb k "__proto__"); [done|]. by apply obj_get_create_ne.
Qed.

(** What is read after a write is what was written, or what was there. *)
Lemma obj_get_set k v o k' w :
  obj_get k' (obj_set k v o) = Some w → (k' = k ∧ w = v) ∨ obj_get k' o = Some w.
Proof.
  destruct (decide (k = k')) as [<-|Hne]; [|rewrite obj_get_set_ne by done; by right].
  unfold obj_set. destruct (obj_has k o) eqn:Hhas.
  - rewrite obj_get_replace_eq by (by apply obj_has_keys). intros [= <-]. by left.
  - destruct (String.eqb k "__proto__"); [by right|].
    rewrite obj_get_create_eq by (by apply obj_has_false). intros [= <-]. by left.
Qed.

(** What a write does to the values an object holds. *)
Lemma obj_replace_values (P : value → Prop) k v o :
  P v → Forall P (Object_values o) → Forall P (Object_values (obj_replace k v o)).
Proof.
  unfold Object_values. intros Hv. induction o as [|[k' v'] o IH]; csimpl; [done|].
  intros Hall. apply Forall_cons in Hall as [Hv' Hall].
  destruct (String.eqb k k'); csimpl; constructor; auto.
Qed.

Lemma obj_create_values (P : value → Prop) k v o :
  P v → Forall P (Object_values o) → Forall P (Object_values (obj_create k v o)).
Proof.
  unfold Object_values. intros Hv. induction o as [|[k' v'] o IH]; csimpl.
  - intros _. by constructor.
  - intros Hall. apply Forall_cons in Hall as [Hv' Hall].
    destruct (key_precedes k k'); csimpl; repeat constructor; auto.
Qed.

Lemma obj_set_values (P : value → Prop) k v o :
  P v → Forall P (Object_values o) → Forall P (Object_values (obj_set k v o)).
Proof.
  intros Hv Hall. unfold obj_set. destruct (obj_has k o).
  - by apply obj_replace_values.
  - destruct (String.eqb k "__proto__"); [done|]. by apply obj_create_values.
Qed.
End ObjectLemmas.

(** ** [Collection.remove] *)

(** C7.  [remove] as [abstract class Collection] writes it, and so as a
    subclass that does not override it inherits it, returns [undefined]
    for every argument and leaves the receiver alone; it throws nothing,
    no [ValueError] either, although [contains] of the same class says of
    every [x] that it is not in the collection. *)
Theorem Collection_remove_returns_normally (S : Type) (this : S) (x : value) :
  Collection.remove Collection.base x this = (Ok VUndef, this)
  ∧ Collection.contains Collection.base x this = (Ok (VBool false), this)
  ∧ Collection.remove Collection.base x this ≠ (Throw ValueError, this).
Proof. repeat split. discriminate. Qed.

(** ** [FrozenSet] *)

Lemma FrozenSet_mutate_throws (m : FrozenSet.mutation) (this : FrozenSet.t) :
  FrozenSet.mutate m this = (Throw FrozenSet.FrozenMutationError, this).
Proof. by destruct m. Qed.

(** C3.  Whatever the set holds and whatever sequence of [add], [delete]
    and [clear] calls a caller tries on it, catching each failure and
    going on, every one of the calls throws the FrozenMutationError and
    the set is left with the elements it had. *)
Theorem FrozenSet_mutations_fail (ms : list FrozenSet.mutation) (this : FrozenSet.t) :
  FrozenSet.attempts ms this
  = (replicate (length ms) (Throw FrozenSet.FrozenMutationError), this)
  ∧ FrozenSet.members (FrozenSet.attempts ms this).2 = FrozenSet.members this.
Proof.
  assert (FrozenSet.attempts ms this
          = (replicate (length ms) (Throw FrozenSet.FrozenMutationError), this)) as Heq.
  { induction ms as [|m ms IH]; simpl; [done|].
    rewrite FrozenSet_mutate_throws, IH. done. }
  split; [done|]. by rewrite Heq.
Qed.

(** C2.  Constructing a [FrozenSet] from an array with at least one
    element throws: the [Set] constructor adds the elements through the
    method [add] of the object under construction, and that method is the
    one that always throws.  So [new FrozenSet([1,2,3])] fails, and only
    an empty or absent iterable gives a set. *)
Theorem FrozenSet_new_throws_on_elements (x : value) (items : list value) :
  FrozenSet.new (VArr (x :: items)) = Throw (TypeError "FrozenSet cannot be modified.")
  ∧ FrozenSet.new (VArr [VNum 1; VNum 2; VNum 3])
    = Throw (TypeError "FrozenSet cannot be modified.")
  ∧ FrozenSet.new (VArr []) = Ok {| FrozenSet.SetData := []; FrozenSet.extensible := false |}.
Proof. done. Qed.

(** ** [contains] and [index]: the delegation *)

(** C1.  [contains] asks [call('contains', arr, y)] and [index] asks
    [call('indexOf', obj, x)], while [call] takes the receiver first and
    the method name second: the method is looked for on the string
    ['contains'], under the key the operand gives, and not on the
    operand.  An object whose [contains] method answers [true], as
    [call] shows when it is asked the right way round, is reported not
    to contain [1]: the key its string form gives, [[object Object]],
    names no member of a string, so [contains] goes on to the scan of
    [index].  In the same way [index] answers [-1] for an object whose
    [indexOf] method answers [true]. *)
Theorem contains_does_not_delegate :
  (let operand := VObj [("contains", VFun Samples.always_true)] in
   call (env := Samples.sample_environment) operand (VStr "contains") [VNum 1]
     = Ok (VBool true)
   ∧ ∀ eq, contains (env := Samples.sample_environment) eq operand (VNum 1)
           = Ok (VBool false))
  ∧ (let operand := VObj [("indexOf", VFun Samples.always_true)] in
     call (env := Samples.sample_environment) operand (VStr "indexOf") [VNum 1]
       = Ok (VBool true)
     ∧ ∀ eq, index (env := Samples.sample_environment) eq operand (VNum 1) 0
             = Ok (VNum (-1))).
Proof. done. Qed.

(** ** [flatten] on keyed mappings *)

Lemma depth_or_default_truthy (depth : value) :
  truthy depth = true → depth_or_default depth = depth.
Proof. by destruct depth. Qed.

(** C10.  On a keyed mapping that the type oracle calls an object, a
    non-array object without a callable member [call], and with a truthy
    depth, [flatten] is [flattenObj] with its default arguments; the
    depth plays no part, so depth [1] and depth [true] give the same
    mapping. *)
Theorem flatten_mapping_ignores_depth {env : Environment} (o depth : value) :
  isObject o = true → truthy depth = true →
  flatten o depth = VObj (flattenObj o "" [] false)
  ∧ flatten o (VNum 1) = flatten o (VBool true).
Proof.
  intros Hobj Hdepth. unfold flatten.
  rewrite (depth_or_default_truthy depth Hdepth), Hdepth. simpl.
  destruct o; try done; by rewrite Hobj.
Qed.

(** C10, as stated, fails on a mapping that has a callable member
    [call]: the type oracle calls it a function, so [flatten] returns it
    as it is, while [flattenObj] writes nothing for it. *)
Lemma flatten_keeps_mapping_with_call :
  let o := VObj [("call", VFun Samples.always_true); ("a", VObj [("b", VNum 1)])] in
  typeof o = "object" ∧ isArray o = false ∧ truthy (VNum 1) = true
  ∧ flatten (env := Samples.sample_environment) o (VNum 1) = o
  ∧ flattenObj (env := Samples.sample_environment) o "" [] false = []
  ∧ flatten (env := Samples.sample_environment) o (VNum 1)
    ≠ VObj (flattenObj (env := Samples.sample_environment) o "" [] false).
Proof. by repeat split. Qed.

Lemma flatten_mapping_ignores_depth_witness :
  let o := VObj [("a", VObj [("b", VNum 1)]); ("c", VArr [VNum 2])] in
  isObject (env := Samples.sample_environment) o = true ∧ truthy (VNum 7) = true
  ∧ flatten (env := Samples.sample_environment) o (VNum 7)
    = VObj (flattenObj (env := Samples.sample_environment) o "" [] false)
  ∧ flatten (env := Samples.sample_environment) o (VNum 1)
    = flatten (env := Samples.sample_environment) o (VBool true).
Proof.
  intros o. split; [reflexivity|]. split; [reflexivity|].
  apply (flatten_mapping_ignores_depth (env := Samples.sample_environment) o (VNum 7));
    reflexivity.
Defined.

(** ** [pick] with a list of keys *)
Section Pick.
Context {env : Environment}.

Lemma pick_array (obj : value) (keys : list value) :
  nullish obj = false →
  pick obj (VArr keys) = foldl (pick_step obj) [] keys.
Proof. intros Hobj. unfold pick. by rewrite Hobj. Qed.

Lemma ordinary_keys_elem (ks : list string) :
  ordinary_keys ks = true ↔ "__proto__" ∉ ks.
Proof.
  unfold ordinary_keys. rewrite negb_true_iff, <- not_true_iff_false, existsb_exists.
  split.
  - intros Hnone Hin. apply Hnone. exists "__proto__".
    by split; [apply list_elem_of_In|].
  - intros Hnin (k & Hin & Heq%String.eqb_eq). subst k.
    by apply Hnin, list_elem_of_In.
Qed.

Lemma pick_loop_keys (obj : value) (ks : list string) (result : object) (k : string) :
  "__proto__" ∉ ks →
  k ∈ Object_keys (foldl (pick_step obj) result (VStr <$> ks))
  ↔ k ∈ ks ∨ k ∈ Object_keys result.
Proof.
  revert result. induction ks as [|k0 ks IH]; intros result Hks; csimpl.
  - split; [by right | by intros [?%elem_of_nil|?]].
  - apply not_elem_of_cons in Hks as [Hk0 Hks].
    rewrite IH by done. unfold pick_step at 1. simpl.
    rewrite obj_set_elem by done. rewrite elem_of_cons. tauto.
Qed.

Lemma pick_loop_NoDup (obj : value) (ks : list string) (result : object) :
  NoDup (Object_keys result) →
  NoDup (Object_keys (foldl (pick_step obj) result (VStr <$> ks))).
Proof.
  revert result. induction ks as [|k0 ks IH]; intros result Hnd; csimpl; [done|].
  apply IH. by apply obj_set_NoDup.
Qed.

Lemma pick_loop_get (obj : value) (ks : list string) (result : object) (k : string) :
  "__proto__" ∉ ks →
  obj_get k (foldl (pick_step obj) result (VStr <$> ks))
  = if decide (k ∈ ks) then Some (get_prop obj k) else obj_get k result.
Proof.
  revert result. induction ks as [|k0 ks IH]; intros result Hks; csimpl.
  - done.
  - apply not_elem_of_cons in Hks as [Hk0 Hks].
    rewrite IH by done. unfold pick_step. simpl.
    destruct (decide (k ∈ ks)) as [Hin|Hnin].
    + by rewrite decide_True by (by right).
    + destruct (decide (k = k0)) as [->|Hne].
      * rewrite decide_True by (by left). by apply obj_get_set_eq.
      * rewrite decide_False by (by intros [?|?]%elem_of_cons).
        apply obj_get_set_ne. congruence.
Qed.

(** C8.  With a list of string keys other than [__proto__], [pick]
    returns a mapping whose keys are the listed ones and no other, each
    once; a listed key holds [obj[k]]: the property of [obj], what [obj]
    inherits under that name when it has no such property, and
    [undefined] when it inherits nothing, so keys missing from [obj] are
    kept.  For [null] and [undefined] the result is the empty
    mapping. *)
Theorem pick_listed_keys (obj : value) (ks : list string) :
  ordinary_keys ks = true →
  let picked := pick obj (VArr (VStr <$> ks)) in
  if nullish obj then picked = []
  else
    NoDup (Object_keys picked)
    ∧ (∀ k, k ∈ Object_keys picked ↔ k ∈ ks)
    ∧ (∀ k, k ∈ ks → obj_get k picked = Some (get_prop obj k))
    ∧ (∀ o k, obj = VObj o → k ∈ ks → k ∉ Object_keys o →
              obj_get k picked = Some (inherited obj k)
              ∧ (inherited obj k = VUndef → obj_get k picked = Some VUndef)).
Proof.
  intros Hks%ordinary_keys_elem picked. unfold picked.
  destruct (nullish obj) eqn:Hobj; [by unfold pick; rewrite Hobj|].
  rewrite pick_array by done.
  split; [apply pick_loop_NoDup; constructor|].
  split.
  { intros k. rewrite pick_loop_keys by done. split; [|by left].
    by intros [?|?%elem_of_nil]. }
  split.
  { intros k Hk. rewrite pick_loop_get by done. by rewrite decide_True. }
  intros o k -> Hk Hnin. rewrite pick_loop_get, decide_True by done.
  apply obj_get_None in Hnin. unfold get_prop. simpl. rewrite Hnin.
  split; [done|]. by intros ->.
Qed.
End Pick.

Lemma pick_listed_keys_witness :
  let obj := VObj [("a", VNum 1); ("b", VNull)] in
  let ks := ["b"; "z"; "toString"] in
  ordinary_keys ks = true
  ∧ (let picked := pick (env := Samples.sample_environment) obj (VArr (VStr <$> ks)) in
     if nullish obj then picked = []
     else
       NoDup (Object_keys picked)
       ∧ (∀ k, k ∈ Object_keys picked ↔ k ∈ ks)
       ∧ (∀ k, k ∈ ks →
               obj_get k picked
               = Some (get_prop (env := Samples.sample_environment) obj k))
       ∧ (∀ o k, obj = VObj o → k ∈ ks → k ∉ Object_keys o →
                 obj_get k picked = Some (Samples.sample_inherited obj k)
                 ∧ (Samples.sample_inherited obj k = VUndef →
                    obj_get k picked = Some VUndef))).
Proof.
  intros obj ks. split; [reflexivity|].
  apply (pick_listed_keys (env := Samples.sample_environment) obj ks). reflexivity.
Defined.

(** C8, as stated, fails on the key [__proto__], for which [pick]
    makes no key at all; and a key that is no property of [obj] but the
    name of an inherited method does not hold [undefined]. *)
Lemma pick_makes_no_proto_key :
  let picked :=
    pick (env := Samples.sample_environment) (VObj [("a", VNum 1)])
      (VArr [VStr "__proto__"]) in
  picked = []
  ∧ ¬ (∀ k, k ∈ Object_keys picked ↔ k ∈ ["__proto__"])
  ∧ pick (env := Samples.sample_environment) (VObj [("a", VNum 1)])
      (VArr [VStr "toString"])
    = [("toString", Samples.builtin "toString")].
Proof.
  split; [done|]. split; [|done].
  intros Hkeys. destruct (Hkeys "__proto__") as [_ Hin].
  by apply elem_of_nil in Hin; [|left].
Qed.

(** ** [flattenObj]: what the leaves are *)
Section FlattenObj.
Context {env : Environment}.

Lemma type_VObj (props : object) :
  type (VObj props) = "object" ∨ type (VObj props) = "function".
Proof.
  unfold type. cbn -[get_prop].
  destruct (String.eqb (typeof (get_prop (VObj props) "call")) "function");
    [by right | by left].
Qed.

Lemma type_VFun (f : func) :
  type (VFun f) = "object" ∨ type (VFun f) = "function".
Proof.
  unfold type. cbn -[get_prop].
  destruct (String.eqb (typeof (get_prop (VFun f) "call")) "undefined");
    [by left | by right].
Qed.

(** The first test of [flattenObj] lets leaves through and nothing else. *)
Lemma flattenObj_test_leaf (keepNull : bool) (o : value) :
  isString o || isNumber o || isBool o || (keepNull && isNull o) = true →
  leaf keepNull o.
Proof.
  destruct o as [ | | b | n | | s | items | props | f | sw | bw ];
    try (by destruct keepNull).
  - unfold isString, isNumber, isBool.
    destruct (type_VObj props) as [-> | ->]; by destruct keepNull.
  - unfold isString, isNumber, isBool.
    destruct (type_VFun f) as [-> | ->]; by destruct keepNull.
Qed.

Lemma flattenObj_unfold (o : value) (prefix : string) (result : object) (keepNull : bool) :
  flattenObj o prefix result keepNull =
  if isString o || isNumber o || isBool o || (keepNull && isNull o) then
    obj_set prefix o result
  else if isArray o || isObject o then
    match o with
    | VArr items =>
        (fix loop (items : list value) (i : nat) (result : object) : object :=
           match items with
           | [] => result
           | o_i :: items' =>
               loop items' (S i)
                 (flattenObj o_i (prefix +:+ "[" +:+ pretty i +:+ "]") result keepNull)
           end) items 0 result
    | VObj props =>
        (fix loop (props : list (string * value)) (result : object) : object :=
           match props with
           | [] => result
           | (i, o_i) :: props' =>
               loop props'
                 (flattenObj o_i
                    (if isEmpty (VStr prefix) then i else prefix +:+ "." +:+ i)
                    result keepNull)
           end) props result
    | _ => result
    end
  else result.
Proof. by destruct o. Qed.

Lemma flattenObj_leaves (keepNull : bool) (o : value) :
  ∀ (prefix : string) (result : object),
    Forall (leaf keepNull) (Object_values result) →
    Forall (leaf keepNull) (Object_values (flattenObj o prefix result keepNull)).
Proof.
  induction o as [ | | b | n | | s | items IH | props IH | f | sw | bw ] using value_nested_ind;
    intros prefix result Hres; rewrite flattenObj_unfold;
    (destruct (isString _ || isNumber _ || isBool _ || (keepNull && isNull _)) eqn:Htest;
     [apply obj_set_values; [by apply flattenObj_test_leaf | done]|]);
    destruct (isArray _ || isObject _); try done.
  - clear Htest. generalize 0. revert result Hres.
    induction IH as [|o_i items Ho_i _ IHitems]; intros result Hres i; [done|].
    apply IHitems. by apply Ho_i.
  - clear Htest. revert result Hres.
    induction IH as [|[i o_i] props Ho_i _ IHprops]; intros result Hres; [done|].
    apply IHprops. by apply Ho_i.
Qed.


End FlattenObj.



(** ** [flattenArray]: the loop comes to an end *)
Section FlattenArray.

Lemma weight_VArr (items : list value) : weight (VArr items) = S (weights items).
Proof.
  reflexivity.
Qed.

Lemma weights_cons (e : value) (l : list value) : weights (e :: l) = S (weight e) + weights l.
Proof. done. Qed.

Lemma weights_app (l1 l2 : list value) : weights (l1 ++ l2) = weights l1 + weights l2.
Proof.
  induction l1 as [|e l1 IH]; [done|].
  rewrite <- app_comm_cons, !weights_cons, IH. lia.
Qed.

Lemma weights_drop (l : list value) (n : nat) : weights (drop n l) ≤ weights l.
Proof.
  rewrite <- (take_drop n l) at 2. rewrite weights_app. lia.
Qed.

Lemma splice1_drop (arr : list value) (i : nat) (x : value) (items : list value) :
  arr !! i = Some x →
  drop (S i) (splice1 arr i items) = drop 1 (items ++ drop (S i) arr).
Proof.
  intros Hi. unfold splice1. apply lookup_lt_Some in Hi.
  rewrite drop_app, length_take_le by lia.
  rewrite drop_ge by (rewrite length_take_le; lia).
  by replace (S i - i) with 1 by lia.
Qed.

Lemma splice1_take (arr : list value) (i : nat) (x : value) (items : list value) :
  arr !! i = Some x →
  take (S i) (splice1 arr i items) = take i arr ++ take 1 (items ++ drop (S i) arr).
Proof.
  intros Hi. unfold splice1. apply lookup_lt_Some in Hi.
  rewrite take_app, length_take_le by lia.
  rewrite take_ge by (rewrite length_take_le; lia).
  by replace (S i - i) with 1 by lia.
Qed.

(** With more fuel than the weight of what is left to scan, the loop
    returns, and the array it leaves weighs no more than the one it was
    given. *)
Lemma flattenArray_loop_returns (fuel : nat) :
  ∀ (depth : value) (arr : list value) (i : nat),
    weights (drop i arr) < fuel →
    ∃ r, flattenArray_loop fuel depth arr i = Some r ∧ weights r ≤ weights arr.
Proof.
  induction fuel as [|fuel IH]; intros depth arr i Hfuel; [lia|].
  simpl. destruct (arr !! i) as [x|] eqn:Hi; [|by exists arr].
  pose proof (drop_S _ _ _ Hi) as Hdrop.
  pose proof (take_drop_middle _ _ _ Hi) as Hmid.
  rewrite Hdrop, weights_cons in Hfuel.
  assert (∃ r, flattenArray_loop fuel depth arr (S i) = Some r
               ∧ weights r ≤ weights arr) as Hskip by (apply IH; lia).
  destruct x as [ | | b | n | | s | items | props | f | sw | bw ]; try exact Hskip.
  clear Hskip. rewrite weight_VArr in Hfuel.
  assert (∃ items', (if negb (truthy (next_depth depth)) then Some items
                     else flattenArray_loop fuel (next_depth depth) items 0)
                    = Some items'
                    ∧ weights items' ≤ weights items) as (items' & -> & Hitems').
  { destruct (negb (truthy (next_depth depth))); [by exists items|].
    apply IH. rewrite drop_0. lia. }
  destruct (IH depth (splice1 arr i items') (S i)) as (r & Hr & Hwr).
  { rewrite (splice1_drop _ _ _ _ Hi).
    pose proof (weights_drop (items' ++ drop (S i) arr) 1) as Hle.
    rewrite weights_app in Hle. lia. }
  exists r. split; [done|].
  unfold splice1 in Hwr. rewrite !weights_app in Hwr.
  rewrite <- Hmid, weights_app, weights_cons, weight_VArr. lia.
Qed.

(** [flattenArray] is the loop run to its end. *)
Lemma flattenArray_loop_run (arr : list value) (depth : value) :
  truthy depth = true →
  flattenArray_loop (S (weights arr)) depth arr 0 = Some (flattenArray arr depth).
Proof.
  intros Hdepth. unfold flattenArray.
  rewrite (depth_or_default_truthy depth Hdepth). cbv zeta.
  rewrite Hdepth. simpl negb. cbv iota.
  destruct (flattenArray_loop_returns (S (weights arr)) depth arr 0) as (r & Hr & _).
  { rewrite drop_0. lia. }
  by rewrite Hr.
Qed.

(** More fuel changes nothing once the loop returns. *)
Lemma flattenArray_loop_more_fuel (fuel : nat) :
  ∀ (fuel' : nat) (depth : value) (arr : list value) (i : nat) (r : list value),
    flattenArray_loop fuel depth arr i = Some r → fuel ≤ fuel' →
    flattenArray_loop fuel' depth arr i = Some r.
Proof.
  induction fuel as [|fuel IH]; intros fuel' depth arr i r Hr Hle; [done|].
  destruct fuel' as [|fuel']; [lia|]. simpl in *.
  destruct (arr !! i) as [x|]; [|done].
  destruct x as [ | | b | n | | s | items | props | f | sw | bw ];
    try (apply (IH fuel'); [done | lia]).
  destruct (negb (truthy (next_depth depth))).
  - apply (IH fuel'); [done | lia].
  - destruct (flattenArray_loop fuel (next_depth depth) items 0) as [items'|] eqn:Hitems;
      [|done].
    rewrite (IH fuel' _ _ _ _ Hitems) by lia.
    apply (IH fuel'); [done | lia].
Qed.

End FlattenArray.

(** ** [flattenArray] at depth 1 *)
Section FlattenDepthOne.

Lemma not_array_nested_once (x : value) : isArray x = false → nested_once x.
Proof. by destruct x. Qed.

Lemma spread_not_arrays (l : list value) :
  Forall (λ y, isArray y = false) l → spread l = l.
Proof.
  unfold spread. induction 1 as [|x l Hx _ IH]; csimpl; [done|].
  rewrite IH. by destruct x.
Qed.

Lemma spread_app (l1 l2 : list value) : spread (l1 ++ l2) = spread l1 ++ spread l2.
Proof. unfold spread. by rewrite fmap_app, concat_app. Qed.

Lemma spread_nested_once (l : list value) :
  Forall nested_once l → Forall (λ y, isArray y = false) (spread l).
Proof.
  unfold spread. induction 1 as [|x l Hx _ IH]; csimpl; [constructor|].
  apply Forall_app. split; [|done].
  destruct x as [ | | b | n | | s | [|e items] | props | f | sw | bw ];
    try done; by repeat constructor.
Qed.

Lemma flattenArray_loop_depth_1 (fuel : nat) :
  ∀ (arr : list value) (i : nat) (r : list value),
    flattenArray_loop fuel (VNum 1) arr i = Some r →
    Forall nested_once (drop i arr) →
    r = take i arr ++ spread (drop i arr).
Proof.
  induction fuel as [|fuel IH]; intros arr i r Hr Hrest; [done|].
  simpl in Hr. destruct (arr !! i) as [x|] eqn:Hi.
  - pose proof (drop_S _ _ _ Hi) as Hdrop. rewrite Hdrop in Hrest |- *.
    apply Forall_cons in Hrest as [Hx Hrest].
    assert (¬ (∃ items, x = VArr items) →
            flattenArray_loop fuel (VNum 1) arr (S i) = Some r →
            r = take i arr ++ spread (x :: drop (S i) arr)) as Hskip.
    { intros Hnot Hr'. apply IH in Hr'; [|done].
      rewrite Hr', (take_S_r _ _ _ Hi), <- app_assoc. f_equal.
      change (x :: drop (S i) arr) with ([x] ++ drop (S i) arr).
      rewrite spread_app. f_equal. unfold spread. csimpl.
      rewrite app_nil_r. destruct x; try done. destruct Hnot. by eexists. }
    destruct x as [ | | b | n | | s | items | props | f | sw | bw ];
      try (apply Hskip; [by intros [? ?] | done]).
    clear Hskip. simpl in Hr.
    destruct items as [|e items]; [done|].
    apply IH in Hr.
    + rewrite Hr, (splice1_take _ _ _ _ Hi), (splice1_drop _ _ _ _ Hi).
      simpl. rewrite drop_0, <- app_assoc. f_equal. simpl.
      apply Forall_cons in Hx as [He Hitems].
      rewrite spread_app, (spread_not_arrays _ Hitems).
      change (VArr (e :: items) :: drop (S i) arr)
        with ([VArr (e :: items)] ++ drop (S i) arr).
      rewrite spread_app. unfold spread at 2. csimpl. by rewrite app_nil_r.
    + rewrite (splice1_drop _ _ _ _ Hi). simpl. rewrite drop_0.
      apply Forall_cons in Hx as [He Hitems].
      apply Forall_app. split; [|done].
      eapply Forall_impl; [exact Hitems|]. apply not_array_nested_once.
  - injection Hr as <-. apply lookup_ge_None_1 in Hi.
    rewrite take_ge, drop_ge by done. unfold spread. csimpl. by rewrite app_nil_r.
Qed.

Lemma has_empty_VArr (items : list value) :
  has_empty (VArr items) = false →
  items ≠ [] ∧ Forall (λ e, has_empty e = false) items.
Proof.
  destruct items as [|e0 items0]; [done|]. intros Hne. split; [done|].
  simpl in Hne. apply orb_false_elim in Hne as [He0 Hrest].
  constructor; [done|].
  induction items0 as [|e items0 IH]; [constructor|].
  apply orb_false_elim in Hrest as [He Hrest]. constructor; auto.
Qed.

Lemma within_has_empty (x : value) (l : list value) :
  Forall (λ e, has_empty e = false) l → within x l → has_empty x = false.
Proof.
  intros Hl Hx. induction Hx as [l Hx | items l Hitems _ IH].
  - by apply (proj1 (Forall_forall _ _) Hl).
  - apply IH. apply has_empty_VArr.
    by apply (proj1 (Forall_forall _ _) Hl).
Qed.

Lemma within_child (x : value) (items l : list value) :
  within (VArr items) l → x ∈ items → within x l ∧ nested_deeper x l.
Proof.
  intros Hitems Hx. induction Hitems as [l Hin | items' l Hin _ IH].
  - split; [|by exists items; split; [|apply within_top]].
    apply (within_nested _ items); [done | by apply within_top].
  - destruct IH as [IH _].
    split; [by apply (within_nested _ items') | by exists items'].
Qed.

(** At depth 1 an array that stays in the result comes from two or more
    levels down, as long as the scan meets no empty array. *)
Lemma flattenArray_loop_depth_1_origin (A : list value) (fuel : nat) :
  Forall (λ e, has_empty e = false) A →
  ∀ (arr : list value) (i : nat) (r : list value),
    flattenArray_loop fuel (VNum 1) arr i = Some r →
    (∀ x, x ∈ drop i arr → within x A) →
    (∀ x, x ∈ take i arr → isArray x = true → nested_deeper x A) →
    ∀ x, x ∈ r → isArray x = true → nested_deeper x A.
Proof.
  intros HA. induction fuel as [|fuel IH]; intros arr i r Hr Hrest Hdone; [done|].
  simpl in Hr. destruct (arr !! i) as [x0|] eqn:Hi.
  - pose proof (drop_S _ _ _ Hi) as Hdrop. rewrite Hdrop in Hrest.
    assert (isArray x0 = false →
            flattenArray_loop fuel (VNum 1) arr (S i) = Some r →
            ∀ x, x ∈ r → isArray x = true → nested_deeper x A) as Hskip.
    { intros Hx0 Hr'. apply (IH _ _ _ Hr').
      - intros x Hx. apply Hrest. by right.
      - intros x. rewrite (take_S_r _ _ _ Hi), elem_of_app, list_elem_of_singleton.
        intros [Hx | ->] Harr; [by apply Hdone | congruence]. }
    destruct x0 as [ | | b | n | | s | items | props | f | sw | bw ]; try (by apply Hskip).
    clear Hskip. simpl in Hr.
    assert (within (VArr items) A) as Hitems by (apply Hrest; by left).
    destruct (has_empty_VArr items) as [Hne _]; [by apply (within_has_empty _ A)|].
    destruct items as [|e items]; [done|].
    apply (IH _ _ _ Hr).
    + intros x. rewrite (splice1_drop _ _ _ _ Hi). simpl. rewrite drop_0, elem_of_app.
      intros [Hx | Hx]; [|apply Hrest; by right].
      apply (within_child x (e :: items)); [done | by right].
    + intros x. rewrite (splice1_take _ _ _ _ Hi). simpl.
      rewrite elem_of_app, list_elem_of_singleton.
      intros [Hx | ->] Harr; [by apply Hdone|].
      apply (within_child e (e :: items)); [done | by left].
  - injection Hr as <-. apply lookup_ge_None_1 in Hi.
    intros x Hx. apply Hdone. by rewrite take_ge.
Qed.

(** C5, as the code has it.  When [A] has no empty array in it, every
    element of [flatten(A.slice(), 1)] that is itself an array was nested
    two or more levels deep in [A].  In particular, when every element of
    [A] is either no array or an array without arrays among its elements,
    the result is [A] with each such array replaced by its elements, and
    no element of the result is an array. *)
Theorem flatten_depth_1_remaining_arrays {env : Environment} (A : list value) :
  Forall (λ e, has_empty e = false) A →
  ∃ r, flatten (VArr A) (VNum 1) = VArr r
       ∧ (∀ x, x ∈ r → isArray x = true → nested_deeper x A)
       ∧ (Forall nested_once A → r = spread A ∧ Forall (λ x, isArray x = false) r).
Proof.
  intros HA. exists (flattenArray A (VNum 1)). split; [done|].
  pose proof (flattenArray_loop_run A (VNum 1) eq_refl) as Hrun. split.
  - apply (flattenArray_loop_depth_1_origin A _ HA _ _ _ Hrun).
    + intros x. rewrite drop_0. apply within_top.
    + by intros x ?%elem_of_nil.
  - intros Honce.
    apply flattenArray_loop_depth_1 in Hrun; [|by rewrite drop_0].
    rewrite drop_0 in Hrun. simpl in Hrun. rewrite Hrun.
    split; [done | by apply spread_nested_once].
Qed.

Lemma flatten_depth_1_remaining_arrays_witness :
  let A := [VArr [VArr [VNum 1]; VNum 2]; VNum 3; VArr [VStr "x"]] in
  Forall (λ e, has_empty e = false) A
  ∧ ∃ r, flatten (env := Samples.sample_environment) (VArr A) (VNum 1) = VArr r
         ∧ (∀ x, x ∈ r → isArray x = true → nested_deeper x A)
         ∧ (Forall nested_once A → r = spread A ∧ Forall (λ x, isArray x = false) r).
Proof.
  intros A.
  assert (Forall (λ e, has_empty e = false) A) as HA by (repeat constructor).
  split; [exact HA|].
  exact (flatten_depth_1_remaining_arrays (env := Samples.sample_environment) A HA).
Defined.

(** C5, as stated, fails: one level of flattening takes [[[1]]] to
    [[1]], whose only element is an array. *)
Lemma flatten_depth_1_keeps_an_array :
  ¬ (∀ A : list value,
       ∃ r, flatten (env := Samples.sample_environment) (VArr A) (VNum 1) = VArr r
            ∧ Forall (λ x, isArray x = false) r).
Proof.
  intros Hclaim.
  destruct (Hclaim [VArr [VArr [VNum 1]]]) as (r & Hr & Hflat).
  vm_compute in Hr. injection Hr as <-.
  apply Forall_cons in Hflat as [Hhead _]. discriminate Hhead.
Qed.

(** C4.  The loop goes on from index [i + 1] after a splice.  So the
    elements spliced in after the first are scanned again with the budget
    [depth] itself: [[1, [2, [3]]]] at depth 1 comes out as [[1, 2, 3]],
    where a budget of [0] for what is spliced in leaves [[1, 2, [3]]];
    likewise [[[1, [2], [3]]]].  The first spliced element is not looked
    at again, and neither is the element that follows an empty nested
    array: [[[[1], [2]]]] comes out as [[[1], 2]] and [[[], [1]]] as
    [[[1]]]. *)
Theorem flattenArray_scans_on_from_next_index :
  (flattenArray [VNum 1; VArr [VNum 2; VArr [VNum 3]]] (VNum 1)
     = [VNum 1; VNum 2; VNum 3]
   ∧ flat 1 [VNum 1; VArr [VNum 2; VArr [VNum 3]]]
     = [VNum 1; VNum 2; VArr [VNum 3]])
  ∧ (flattenArray [VArr [VNum 1; VArr [VNum 2]; VArr [VNum 3]]] (VNum 1)
       = [VNum 1; VNum 2; VNum 3]
     ∧ flat 1 [VArr [VNum 1; VArr [VNum 2]; VArr [VNum 3]]]
       = [VNum 1; VArr [VNum 2]; VArr [VNum 3]])
  ∧ (flattenArray [VArr [VArr [VNum 1]; VArr [VNum 2]]] (VNum 1)
       = [VArr [VNum 1]; VNum 2]
     ∧ flat 1 [VArr [VArr [VNum 1]; VArr [VNum 2]]]
       = [VArr [VNum 1]; VArr [VNum 2]])
  ∧ (flattenArray [VArr []; VArr [VNum 1]] (VNum 1) = [VArr [VNum 1]]
     ∧ flat 1 [VArr []; VArr [VNum 1]] = [VNum 1]).
Proof. repeat split; vm_compute; reflexivity. Qed.

End FlattenDepthOne.

(** ** [uniq]: a last-write-wins mapping, read in own-property order *)
Section UniqSpec.
Context {env : Environment}.

(** The value [uniq] stores for an element is its derived key. *)
Lemma derived_is_derived_key (fn x : value) : derived fn x = derived_key fn x.
Proof.
  unfold derived, derived_key, get_member, to_property_key, Operators.id.
  destruct fn; try done; by destruct x.
Qed.

Lemma derived_all_length (fn : value) (arr ds : list value) :
  derived_all fn arr = Ok ds → length ds = length arr.
Proof.
  revert ds. induction arr as [|x arr IH]; intros ds; simpl.
  - by intros [= <-].
  - destruct (derived_key fn x) as [d|e]; [|done]. simpl.
    destruct (derived_all fn arr) as [ds'|e]; [|done]. simpl.
    intros [= <-]. simpl. f_equal. by apply IH.
Qed.

Lemma uniq_loop_writes (fn : value) (arr : list value) (keys : object) :
  uniq_loop fn arr keys =
  do ds <- derived_all fn arr;
  Ok (foldl write keys (zip (to_property_key <$> arr) ds)).
Proof.
  revert keys. induction arr as [|x arr IH]; intros keys; simpl; [done|].
  rewrite derived_is_derived_key.
  destruct (derived_key fn x) as [d|e]; [|done]. simpl. rewrite IH.
  by destruct (derived_all fn arr).
Qed.

Lemma writes_get (writes : list (string * value)) :
  "__proto__" ∉ writes.*1 →
  ∀ (o : object) (m : gmap string value),
    (∀ k, obj_get k o = m !! k) →
    ∀ k, obj_get k (foldl write o writes)
         = foldl (λ m kv, <[kv.1 := kv.2]> m) m writes !! k.
Proof.
  induction writes as [|[k0 v0] writes IH]; intros Hkeys o m Hom k; simpl; [done|].
  csimpl in Hkeys. apply not_elem_of_cons in Hkeys as [Hk0 Hkeys].
  apply IH; [done|]. intros k'. unfold write. simpl.
  destruct (decide (k0 = k')) as [->|Hne].
  - by rewrite obj_get_set_eq, lookup_insert_eq by done.
  - by rewrite obj_get_set_ne, lookup_insert_ne.
Qed.

Lemma writes_keys_elem (writes : list (string * value)) (o : object) (k : string) :
  "__proto__" ∉ writes.*1 →
  k ∈ Object_keys (foldl write o writes) ↔ k ∈ writes.*1 ∨ k ∈ Object_keys o.
Proof.
  revert o. induction writes as [|[k0 v0] writes IH]; intros o Hkeys; csimpl.
  - split; [by right | by intros [?%elem_of_nil|?]].
  - csimpl in Hkeys. apply not_elem_of_cons in Hkeys as [Hk0 Hkeys].
    rewrite IH by done. unfold write at 1. simpl.
    rewrite obj_set_elem, elem_of_cons by done. tauto.
Qed.

Lemma writes_keys_NoDup (writes : list (string * value)) (o : object) :
  NoDup (Object_keys o) → NoDup (Object_keys (foldl write o writes)).
Proof.
  revert o. induction writes as [|[k0 v0] writes IH]; intros o Hnd; simpl; [done|].
  apply IH. by apply obj_set_NoDup.
Qed.

Lemma Object_values_get (o : object) :
  NoDup (Object_keys o) →
  Object_values o = (λ k, default VUndef (obj_get k o)) <$> Object_keys o.
Proof.
  unfold Object_values, Object_keys.
  induction o as [|[k v] o IH]; intros Hnd; csimpl; [done|].
  apply NoDup_cons in Hnd as [Hk Hnd].
  rewrite String.eqb_refl. simpl. f_equal. rewrite IH by done.
  apply Forall_fmap_ext_1, Forall_forall. intros k' Hk'.
  destruct (String.eqb_spec k' k) as [->|?]; done.
Qed.

(** *** Where a new key goes *)

Lemma obj_create_keys (k : string) (v : value) (o : object) :
  Object_keys (obj_create k v o) = key_create k (Object_keys o).
Proof.
  unfold Object_keys. induction o as [|[k' v'] o IH]; csimpl; [done|].
  destruct (key_precedes k k'); csimpl; [done|]. by rewrite IH.
Qed.

Lemma array_index_pretty (k : string) (n : N) : array_index k = Some n → k = pretty n.
Proof.
  unfold array_index. destruct (String.eqb_spec (pretty (parse_digits k 0)) k) as [Heq|?];
    [|done].
  simpl. destruct (_ <? _)%N; [|done]. intros [= <-]. done.
Qed.

Lemma key_create_other (k : string) (ks : list string) :
  array_index k = None → key_create k ks = ks ++ [k].
Proof.
  intros Hk. induction ks as [|k' ks IH]; simpl; [done|].
  unfold key_precedes. rewrite Hk. by rewrite IH.
Qed.

Lemma key_create_index (k : string) (n : N) (idx : list N) (others : list string) :
  array_index k = Some n →
  Forall (λ m, array_index (pretty m) = Some m) idx →
  Forall (λ k', array_index k' = None) others →
  key_create k ((pretty <$> idx) ++ others) = (pretty <$> idx_insert n idx) ++ others.
Proof.
  intros Hk Hidx Hothers. pose proof (array_index_pretty _ _ Hk) as Hkn.
  induction Hidx as [|m idx Hm _ IH]; csimpl.
  - destruct Hothers as [|k' others Hk' _]; simpl; [by rewrite Hkn|].
    unfold key_precedes. by rewrite Hk, Hk', Hkn.
  - unfold key_precedes at 1. rewrite Hk, Hm.
    destruct (n <? m)%N; csimpl; [by rewrite Hkn|]. by rewrite IH.
Qed.

Lemma idx_insert_perm (n : N) (idx : list N) : idx_insert n idx ≡ₚ n :: idx.
Proof.
  induction idx as [|m idx IH]; simpl; [done|].
  destruct (n <? m)%N; [done|]. rewrite IH. apply Permutation_swap.
Qed.

Lemma idx_insert_sorted (n : N) (idx : list N) :
  Sorted N.le idx → Sorted N.le (idx_insert n idx).
Proof.
  induction 1 as [|m idx Hsorted IH Hhd]; simpl; [by repeat constructor|].
  destruct (N.ltb_spec n m) as [Hlt|Hge].
  - repeat constructor; [done.. | lia].
  - constructor; [done|].
    destruct Hhd as [|m' idx' Hmm']; simpl; [by constructor|].
    destruct (n <? m')%N; by constructor.
Qed.

Lemma first_occurrences_snoc (ks : list string) (k : string) :
  first_occurrences (ks ++ [k])
  = if decide (k ∈ ks) then first_occurrences ks else first_occurrences ks ++ [k].
Proof.
  unfold first_occurrences. rewrite reverse_snoc. simpl.
  destruct (decide_rel elem_of k (reverse ks)) as [Hrev|Hrev];
    rewrite elem_of_reverse in Hrev.
  - by rewrite decide_True.
  - by rewrite decide_False, reverse_cons.
Qed.

Lemma merge_sort_perm (l1 l2 : list N) :
  l1 ≡ₚ l2 → merge_sort N.le l1 = merge_sort N.le l2.
Proof.
  intros Hperm. apply (Sorted_unique N.le); [apply Sorted_merge_sort; apply _.. |].
  by rewrite !merge_sort_Permutation.
Qed.

Lemma remove_dups_snoc_perm (l : list N) (n : N) :
  remove_dups (l ++ [n]) ≡ₚ if decide (n ∈ l) then remove_dups l else n :: remove_dups l.
Proof.
  apply NoDup_Permutation.
  - apply NoDup_remove_dups.
  - destruct (decide (n ∈ l)); [apply NoDup_remove_dups|].
    constructor; [by rewrite elem_of_remove_dups | apply NoDup_remove_dups].
  - intros x. rewrite elem_of_remove_dups, elem_of_app, list_elem_of_singleton.
    destruct (decide (n ∈ l)) as [Hin|Hnin].
    + rewrite elem_of_remove_dups. split; [by intros [?| ->] | by left].
    + rewrite elem_of_cons, elem_of_remove_dups. tauto.
Qed.

(** The keys of an object built by writes, in the order of the
    enumeration. *)
Lemma writes_keys_order (writes : list (string * value)) :
  "__proto__" ∉ writes.*1 →
  Object_keys (foldl write [] writes) = own_property_order writes.*1.
Proof.
  unfold own_property_order.
  induction writes as [|[k v] writes IH] using rev_ind; intros Hkeys; [done|].
  rewrite fmap_app in Hkeys. apply not_elem_of_app in Hkeys as [Hkeys Hk].
  csimpl in Hk. apply not_elem_of_cons in Hk as [Hk _].
  specialize (IH Hkeys).
  rewrite foldl_app, fmap_app, omap_app, filter_app. csimpl.
  set (o := foldl write [] writes) in *.
  assert (∀ k', k' ∈ Object_keys o ↔ k' ∈ writes.*1) as Helem.
  { intros k'. unfold o. rewrite writes_keys_elem by done. split; [|by left].
    by intros [?|?%elem_of_nil]. }
  set (idx := merge_sort N.le (remove_dups (omap array_index writes.*1))) in *.
  assert (Forall (λ m, array_index (pretty m) = Some m) idx) as Hidx.
  { apply Forall_forall. intros m Hm. unfold idx in Hm.
    rewrite merge_sort_Permutation, elem_of_remove_dups, list_elem_of_omap in Hm.
    destruct Hm as (k' & _ & Hk'). by rewrite <- (array_index_pretty _ _ Hk'). }
  assert (Forall (λ k', array_index k' = None)
            (first_occurrences (filter (λ k, array_index k = None) writes.*1)))
    as Hothers.
  { apply Forall_forall. intros k'. unfold first_occurrences.
    rewrite elem_of_reverse, elem_of_remove_dups, elem_of_reverse, list_elem_of_filter.
    by intros [? _]. }
  unfold write at 1. simpl. rewrite obj_set_other by congruence.
  destruct (obj_has k o) eqn:Hhas.
  - (* the key exists: its place stays *)
    apply obj_has_keys, Helem in Hhas. rewrite obj_replace_keys, IH.
    destruct (array_index k) as [n|] eqn:Hidxk; simpl.
    + rewrite filter_cons_False, filter_nil, app_nil_r by (by rewrite Hidxk).
      f_equal. f_equal. apply merge_sort_perm.
      rewrite remove_dups_snoc_perm, decide_True; [done|].
      apply list_elem_of_omap. by exists k.
    + rewrite app_nil_r, filter_cons_True, filter_nil by done.
      rewrite first_occurrences_snoc, decide_True; [done|].
      by apply list_elem_of_filter.
  - (* the key is new *)
    apply obj_has_false in Hhas. rewrite Helem in Hhas.
    rewrite obj_create_keys, IH.
    destruct (array_index k) as [n|] eqn:Hidxk; simpl.
    + rewrite filter_cons_False, filter_nil, app_nil_r by (by rewrite Hidxk).
      rewrite (key_create_index _ n) by done. f_equal. f_equal.
      apply (Sorted_unique N.le).
      * apply idx_insert_sorted, Sorted_merge_sort; apply _.
      * apply Sorted_merge_sort; apply _.
      * rewrite idx_insert_perm, merge_sort_Permutation. unfold idx.
        rewrite merge_sort_Permutation, remove_dups_snoc_perm, decide_False; [done|].
        rewrite list_elem_of_omap. intros (k' & Hk' & Hkn).
        apply array_index_pretty in Hkn. apply array_index_pretty in Hidxk.
        congruence.
    + rewrite app_nil_r, filter_cons_True, filter_nil by done.
      rewrite key_create_other by done.
      rewrite first_occurrences_snoc, decide_False, app_assoc; [done|].
      rewrite list_elem_of_filter. by intros [_ ?].
Qed.

Lemma uniq_refines_spec (arr : list value) (fn : value) :
  "__proto__" ∉ (to_property_key <$> arr) →
  uniq arr fn = uniq_spec arr fn.
Proof.
  intros Hkeys. unfold uniq, uniq_spec. rewrite uniq_loop_writes.
  destruct (derived_all fn arr) as [ds|e] eqn:Hds; [|done]. simpl. f_equal.
  assert ((zip (to_property_key <$> arr) ds).*1 = to_property_key <$> arr) as Hfst
    by (rewrite fst_zip; [done|];
        rewrite length_fmap, (derived_all_length _ _ _ Hds); lia).
  rewrite Object_values_get by (apply writes_keys_NoDup; constructor).
  rewrite writes_keys_order, Hfst by (by rewrite Hfst).
  apply Forall_fmap_ext_1, Forall_forall. intros k _.
  by rewrite (writes_get _ ltac:(by rewrite Hfst) [] ∅).
Qed.
End UniqSpec.

(** C9.  For an array none of whose elements has the key [__proto__],
    and which the model prints as the host does, [uniq(arr, fn)] is the
    list of values of the last-write-wins mapping that holds, under the
    key each element [x] coerces to, the key derived from [x] ([fn(x)],
    or [x[fn]] when [fn] is no function, or [x] itself when [fn] is not
    given), read in the order an object lists its keys.  For
    [[1,1,2,3,3]] and the identity this is [[1,2,3]], which [sortedUniq]
    returns in ascending order of [comp]. *)
Theorem uniq_last_write_wins :
  (∀ (env : Environment) (arr : list value) (fn : value),
     ordinary_keys (to_property_key <$> arr) = true →
     forallb printable (fn :: arr) = true →
     uniq arr fn = uniq_spec arr fn)
  ∧ (let arr := [VNum 1; VNum 1; VNum 2; VNum 3; VNum 3] in
     let fn := VFun Samples.identity in
     uniq (env := Samples.sample_environment) arr fn = Ok [VNum 1; VNum 2; VNum 3]
     ∧ uniq (env := Samples.sample_environment) arr VUndef
       = Ok [VNum 1; VNum 2; VNum 3]
     ∧ sortedUniq (env := Samples.sample_environment) Samples.comp arr fn
       = Ok [VNum 1; VNum 2; VNum 3]
     ∧ Sorted (λ x y, Samples.comp x y = VNum (-1)) [VNum 1; VNum 2; VNum 3]).
Proof.
  split.
  { intros env arr fn Hkeys%ordinary_keys_elem _. by apply uniq_refines_spec. }
  split; [by vm_compute|]. split; [by vm_compute|]. split; [by vm_compute|].
  repeat constructor.
Qed.

(** C9, as stated, fails on an element whose key is [__proto__]:
    the object that serves as the mapping stores nothing under that
    key, so the element is missing from what [uniq] returns, while a
    last-write-wins mapping holds it. *)
Lemma uniq_drops_proto_key :
  let arr := [VStr "__proto__"; VStr "a"] in
  let fn := VFun Samples.identity in
  uniq (env := Samples.sample_environment) arr fn = Ok [VStr "a"]
  ∧ uniq_spec (env := Samples.sample_environment) arr fn
    = Ok [VStr "__proto__"; VStr "a"]
  ∧ uniq (env := Samples.sample_environment) arr fn
    ≠ uniq_spec (env := Samples.sample_environment) arr fn.
Proof. split; [by vm_compute|]. split; [by vm_compute|]. by vm_compute. Qed.

(** ** Array indices: printing and reading back *)
Section ArrayIndices.
Context {env : Environment}.

Lemma parse_pretty_N_char (d : N) :
  (d < 10)%N → (Ascii.N_of_ascii (pretty_N_char d) - 48 = d)%N.
Proof.
  intros Hd.
  assert (d = 0 ∨ d = 1 ∨ d = 2 ∨ d = 3 ∨ d = 4 ∨ d = 5 ∨ d = 6 ∨ d = 7
          ∨ d = 8 ∨ d = 9)%N as Hcases by lia.
  repeat (destruct Hcases as [->|Hcases]; [reflexivity|]). by subst.
Qed.

Lemma parse_pretty_N_go (x : N) :
  ∃ k : N, ∀ (s : string) (acc : N),
    parse_digits (pretty_N_go x s) acc = parse_digits s (acc * 10 ^ k + x)%N.
Proof.
  induction (N.lt_wf_0 x) as [x _ IH].
  assert (x = 0 ∨ 0 < x)%N as [->|Hx] by lia.
  - exists 0%N. intros s acc. rewrite pretty_N_go_0. f_equal. lia.
  - destruct (IH (x `div` 10)%N) as [k Hk]; [by apply N.div_lt|].
    exists (k + 1)%N. intros s acc. rewrite pretty_N_go_step, Hk by done.
    simpl. rewrite parse_pretty_N_char by (by apply N.mod_lt). f_equal.
    rewrite N.pow_add_r, N.pow_1_r.
    rewrite (N.div_mod x 10) at 3 by done. lia.
Qed.

Lemma parse_pretty_N (n : N) : parse_digits (pretty n) 0 = n.
Proof.
  unfold pretty, pretty_N. case_decide as Hn; [by subst|].
  destruct (parse_pretty_N_go n) as [k Hk]. rewrite Hk. simpl. lia.
Qed.

Lemma array_index_of_pretty (n : N) :
  (n < 2 ^ 32 - 1)%N → array_index (pretty n) = Some n.
Proof.
  intros Hn. unfold array_index. rewrite parse_pretty_N, String.eqb_refl. simpl.
  by apply N.ltb_lt in Hn as ->.
Qed.

(** Reading element [i] of an array through its key. *)
Lemma get_prop_array (items : list value) (i : nat) (x : value) :
  (N.of_nat i < 2 ^ 32 - 1)%N →
  items !! i = Some x →
  get_prop (VArr items) (pretty i) = x.
Proof.
  intros Hi Hx. unfold get_prop, get_own. unfold pretty at 1 2, pretty_nat.
  pose proof (array_index_of_pretty _ Hi) as Hidx.
  destruct (String.eqb_spec (pretty (N.of_nat i)) "length") as [Heq|_].
  - rewrite Heq in Hidx. discriminate Hidx.
  - by rewrite Hidx, Nat2N.id, Hx.
Qed.

(** An own property is read before anything inherited. *)
Lemma get_prop_own (o : object) (k : string) (v : value) :
  obj_get k o = Some v → get_prop (VObj o) k = v.
Proof. intros Hk. unfold get_prop. simpl. by rewrite Hk. Qed.

(** The loop [for (const i in o)] with [o[i]] reads the elements of an
    array, and the own properties of an object, one after the other. *)
Lemma for_in_reads_array (items : list value) :
  (N.of_nat (length items) < 2 ^ 32)%N →
  get_prop (VArr items) <$> for_in_keys (VArr items) = items.
Proof.
  intros Hlen. simpl for_in_keys. rewrite <- list_fmap_compose.
  apply list_eq. intros i. rewrite list_lookup_fmap.
  destruct (items !! i) as [x|] eqn:Hx.
  - pose proof (lookup_lt_Some _ _ _ Hx) as Hi.
    rewrite lookup_seq_lt by done. cbn [fmap option_fmap option_map compose plus].
    by rewrite (get_prop_array items i x) by (done || lia).
  - apply lookup_ge_None_1 in Hx. by rewrite lookup_seq_ge.
Qed.

Lemma for_in_reads_object (o : object) :
  NoDup (Object_keys o) →
  get_prop (VObj o) <$> for_in_keys (VObj o) = Object_values o.
Proof.
  intros Hnd. simpl for_in_keys. rewrite Object_values_get by done.
  apply Forall_fmap_ext_1, Forall_forall. intros k Hk.
  apply obj_has_keys in Hk. unfold obj_has in Hk.
  destruct (obj_get k o) as [v|] eqn:Hget; [|done].
  by rewrite (get_prop_own o k v).
Qed.

End ArrayIndices.

(** ** The examples of the specification, run on the embedding *)
Section SpecExamples.
Existing Instance Samples.sample_environment.

Example contains_present :
  contains Samples.eq (VArr [VNum 1; VNum 2; VNum 3]) (VNum 2) = Ok (VBool true).
Proof. reflexivity. Qed.

Example contains_absent :
  contains Samples.eq (VArr [VNum 1; VNum 2; VNum 3]) (VNum 9) = Ok (VBool false).
Proof. reflexivity. Qed.

Example index_in_string :
  index Samples.eq (VStr "hello") (VStr "l") 0 = Ok (VNum 2).
Proof. reflexivity. Qed.

Example pick_two_of_three :
  pick (VObj [("a", VNum 1); ("b", VNum 2); ("c", VNum 3)]) (VArr [VStr "a"; VStr "c"])
  = [("a", VNum 1); ("c", VNum 3)].
Proof. reflexivity. Qed.

Example pick_missing_key :
  pick (VObj [("a", VNum 1)]) (VArr [VStr "z"]) = [("z", VUndef)].
Proof. reflexivity. Qed.

Example flattenObj_paths :
  flattenObj
    (VObj [("a", VObj [("b", VNum 1)]); ("c", VArr [VNum 2; VObj [("d", VNum 3)]])])
    "" [] false
  = [("a.b", VNum 1); ("c[0]", VNum 2); ("c[1].d", VNum 3)].
Proof. reflexivity. Qed.

Example uniq_lists_indices_first :
  uniq [VNum 3; VStr "b"; VNum 1; VStr "a"; VNum 3; VStr "b"] (VFun Samples.identity)
  = Ok [VNum 1; VNum 3; VStr "b"; VStr "a"].
Proof. by vm_compute. Qed.

Example flatten_no_depth :
  flatten (VArr [VArr [VNum 1]]) (VNum 0) = VArr [VArr [VNum 1]].
Proof. reflexivity. Qed.

End SpecExamples.

(* ===================================================================== *)
(** * Further properties of [globals/index.ts] *)
(* ===================================================================== *)

(** ** [hashCode] *)
Section HashCode.
Local Open Scope Z_scope.

Lemma ToInt32_wraps (x : Z) : ∃ t, ToInt32 x = x + t * 2 ^ 32.
Proof.
  unfold ToInt32. rewrite Z.mod_eq by done.
  exists (- ((x + 2 ^ 31) / 2 ^ 32)). lia.
Qed.

Lemma ToInt32_mod (x : Z) : ToInt32 x mod 2 ^ 32 = x mod 2 ^ 32.
Proof. destruct (ToInt32_wraps x) as [t ->]. apply Z_mod_plus_full. Qed.

Lemma shift_left_wraps (x k : Z) : 0 ≤ k → ∃ t, shift_left x k = x * 2 ^ k + t * 2 ^ 32.
Proof.
  intros Hk. unfold shift_left. rewrite Z.shiftl_mul_pow2 by done.
  destruct (ToInt32_wraps x) as [t ->].
  destruct (ToInt32_wraps ((x + t * 2 ^ 32) * 2 ^ k)) as [t' ->].
  exists (t * 2 ^ k + t'). lia.
Qed.

Lemma lxor_mod_pow2 (a b : Z) : Z.lxor a b mod 2 ^ 32 = Z.lxor (a mod 2 ^ 32) (b mod 2 ^ 32).
Proof.
  apply Z.bits_inj'. intros i Hi.
  rewrite Z.lxor_spec, !Z.testbit_mod_pow2, Z.lxor_spec by done.
  by destruct (i <? 32).
Qed.

Lemma bit_xor_mod (h code : Z) :
  0 ≤ code < 2 ^ 32 →
  bit_xor h code mod 2 ^ 32 = Z.lxor (h mod 2 ^ 32) code.
Proof.
  intros Hcode. unfold bit_xor.
  rewrite ToInt32_mod, lxor_mod_pow2, !ToInt32_mod.
  by rewrite (Z.mod_small code).
Qed.

Lemma hashCode_step_mod (h : Z) :
  (h + (shift_left h 1 + shift_left h 4 + shift_left h 7 + shift_left h 8
        + shift_left h 24)) mod 2 ^ 32
  = (h mod 2 ^ 32 * 16777619) mod 2 ^ 32.
Proof.
  destruct (shift_left_wraps h 1) as [t1 ->]; [done|].
  destruct (shift_left_wraps h 4) as [t4 ->]; [done|].
  destruct (shift_left_wraps h 7) as [t7 ->]; [done|].
  destruct (shift_left_wraps h 8) as [t8 ->]; [done|].
  destruct (shift_left_wraps h 24) as [t24 ->]; [done|].
  rewrite Z.mul_mod_idemp_l by done.
  replace (h + (h * 2 ^ 1 + t1 * 2 ^ 32 + (h * 2 ^ 4 + t4 * 2 ^ 32)
                + (h * 2 ^ 7 + t7 * 2 ^ 32) + (h * 2 ^ 8 + t8 * 2 ^ 32)
                + (h * 2 ^ 24 + t24 * 2 ^ 32)))
    with (h * 16777619 + (t1 + t4 + t7 + t8 + t24) * 2 ^ 32) by lia.
  apply Z_mod_plus_full.
Qed.

Lemma hashCode_loop_mod (codes : list Z) :
  Forall (λ code, 0 ≤ code < 2 ^ 32) codes →
  ∀ h, hashCode_loop codes h mod 2 ^ 32
       = foldl (λ h code, (Z.lxor h code * 16777619) mod 2 ^ 32) (h mod 2 ^ 32) codes.
Proof.
  induction 1 as [|code codes Hcode _ IH]; intros h; simpl; [done|].
  rewrite IH, hashCode_step_mod, bit_xor_mod by done. done.
Qed.

Lemma char_codes_range (str : string) : Forall (λ code, 0 ≤ code < 2 ^ 32) (char_codes str).
Proof.
  unfold char_codes. apply Forall_fmap, Forall_forall. intros c _. simpl.
  pose proof (Ascii.nat_ascii_bounded c). lia.
Qed.

(** X1.  [hashCode] computes the 32-bit FNV-1a hash of the character
    codes: the shifts and the sum are the multiplication by the FNV
    prime, modulo [2^32].  The result is an unsigned 32-bit integer, and
    the empty string hashes to the offset basis [0x811c9dc5]. *)
Theorem hashCode_is_fnv1a (str : string) :
  hashCode str = fnv1a str
  ∧ 0 ≤ hashCode str < 2 ^ 32
  ∧ hashCode "" = 0x811c9dc5.
Proof.
  split; [|split; [apply Z.mod_pos_bound; done | done]].
  unfold hashCode, fnv1a, ToUint32.
  by rewrite hashCode_loop_mod by apply char_codes_range.
Qed.

End HashCode.

(** ** [len] and [isEmpty] *)
Section IsEmpty.
Context {env : Environment}.

Lemma len_own_length (x v : value) :
  nullish x = false → get_own x "length" = Some v → v ≠ VUndef → len x = v.
Proof.
  intros Hx Hown Hv. unfold len, get_prop. rewrite Hx, Hown. by destruct v.
Qed.

Lemma len_no_length (x : value) :
  nullish x = false → get_prop x "length" = VUndef →
  isFunc (get_prop x "size") = false →
  len x = if isObject x then VNum (Z.of_nat (length (for_in_keys x))) else VUndef.
Proof.
  intros Hx Hlength Hsize. unfold len. rewrite Hx, Hlength.
  by destruct (get_prop x "size").
Qed.

End IsEmpty.

(** X3.  [isEmpty] says of an array, and of a string, whether it has
    length zero; [null] and [undefined] are empty.  Of a value that has
    no [toString] property of its own, no [length], own or inherited,
    and no method [size]: when the type
    oracle does not class it as an object ([5], [false]), it is empty
    when it is falsy; when it does, it is empty when it has no property
    of its own.  An object whose own [length] property is [0] is empty
    whatever else it holds, and so is a function that takes no
    parameter, its [length] being [0]. *)
Theorem isEmpty_by_cases {env : Environment} :
  (∀ items, isEmpty (VArr items) = match items with [] => true | _ => false end)
  ∧ (∀ s, isEmpty (VStr s) = String.eqb s "")
  ∧ isEmpty VNull = true ∧ isEmpty VUndef = true
  ∧ (∀ x, printable x = true →
          get_prop x "length" = VUndef → isFunc (get_prop x "size") = false →
          isObject x = false → isEmpty x = negb (truthy x))
  ∧ (∀ o, printable (VObj o) = true →
          get_prop (VObj o) "length" = VUndef →
          isFunc (get_prop (VObj o) "size") = false →
          isObject (VObj o) = true →
          isEmpty (VObj o) = match o with [] => true | _ => false end)
  ∧ (∀ o, obj_get "length" o = Some (VNum 0) → isEmpty (VObj o) = true)
  ∧ isEmpty (env := Samples.sample_environment) (VNum 0) = true
  ∧ isEmpty (env := Samples.sample_environment) (VNum 5) = false
  ∧ isEmpty (env := Samples.sample_environment) (VBool false) = true
  ∧ isEmpty (env := Samples.sample_environment) VNaN = true
  ∧ isEmpty (env := Samples.sample_environment) (VObj []) = true
  ∧ isEmpty (env := Samples.sample_environment) (VObj [("a", VNum 1)]) = false
  ∧ isEmpty (env := Samples.sample_environment) (VFun Samples.always_true) = true
  ∧ isEmpty (env := Samples.sample_environment) (VFun Samples.identity) = false.
Proof.
  split.
  { intros items. unfold isEmpty.
    rewrite (len_own_length (VArr items) (VNum (Z.of_nat (length items)))) by done.
    by destruct items. }
  split.
  { intros s. unfold isEmpty.
    rewrite (len_own_length (VStr s) (VNum (Z.of_nat (String.length s)))) by done.
    by destruct s. }
  split; [reflexivity|]. split; [reflexivity|].
  split.
  { intros x _ Hlength Hsize Hobj. unfold isEmpty.
    destruct (nullish x) eqn:Hx; [by destruct x|].
    by rewrite len_no_length, Hobj by done. }
  split.
  { intros o _ Hlength Hsize Hobj. unfold isEmpty.
    rewrite len_no_length, Hobj by done. by destruct o. }
  split.
  { intros o Hlength. unfold isEmpty.
    by rewrite (len_own_length (VObj o) (VNum 0)). }
  repeat split; reflexivity.
Qed.

(** ** [get] and [call] *)
Section GetCall.
Context {env : Environment}.

Lemma split_dot_aux_no_dot (s cur : string) :
  no_dot s = true → split_dot_aux s cur = [String.rev_app cur s].
Proof.
  revert cur. induction s as [|c s IH]; intros cur Hs; simpl in *; [done|].
  apply andb_prop in Hs as [Hc Hs]. apply negb_true_iff in Hc. rewrite Hc.
  by rewrite IH.
Qed.

Lemma split_dot_aux_dot (a rest cur : string) :
  no_dot a = true →
  split_dot_aux (a +:+ "." +:+ rest) cur
  = String.rev_app cur a :: split_dot_aux rest "".
Proof.
  revert cur. induction a as [|c a IH]; intros cur Ha; simpl in *; [done|].
  apply andb_prop in Ha as [Hc Ha]. apply negb_true_iff in Hc. rewrite Hc.
  by rewrite IH.
Qed.

Lemma split_dot_aux_not_nil (s cur : string) : split_dot_aux s cur ≠ [].
Proof.
  revert cur. induction s as [|c s IH]; intros cur; simpl; [done|].
  by destruct (Ascii.eqb _ _).
Qed.

Lemma get_no_dot (k : string) (obj d : value) :
  no_dot k = true →
  get (VStr k) obj d
  = if nullish obj then d
    else match get_prop obj k with VUndef => d | v => v end.
Proof.
  intros Hk. unfold get, split_dot. rewrite split_dot_aux_no_dot by done.
  destruct (nullish obj) eqn:Hobj; [done|].
  cbn [fmap list_fmap walk String.rev_app].
  unfold get_member. rewrite Hobj. cbn [bind to_property_key to_string].
  by destruct (get_prop obj k).
Qed.

Lemma get_first_segment (a rest : string) (obj d : value) :
  no_dot a = true → nullish obj = false →
  get (VStr (a +:+ "." +:+ rest)) obj d = get (VStr rest) (get_prop obj a) d.
Proof.
  intros Ha Hobj. unfold get, split_dot. rewrite Hobj.
  rewrite split_dot_aux_dot by done.
  cbn [fmap list_fmap walk String.rev_app].
  unfold get_member at 1. rewrite Hobj. cbn [bind to_property_key to_string].
  destruct (nullish (get_prop obj a)) eqn:Hnext; [|done].
  pose proof (split_dot_aux_not_nil rest "") as Hne.
  destruct (split_dot_aux rest "") as [|p ps]; [done|].
  cbn [fmap list_fmap walk].
  unfold get_member. by rewrite Hnext.
Qed.

End GetCall.

(** X4.  For a key without a dot, [get(key, obj, value)] is [obj[key]],
    the property being the own one or, when [obj] has none of that name,
    the inherited one; it is the default [value] when [obj] is [null] or
    [undefined] or the property is [undefined].  An own property that
    holds [null] is returned as [null], not replaced by the default; a
    key that is neither an own property nor inherited gives the
    default. *)
Theorem get_plain_key {env : Environment} (k : string) (obj d : value) :
  no_dot k = true →
  get (VStr k) obj d
  = (if nullish obj then d
     else match get_prop obj k with VUndef => d | v => v end)
  ∧ (∀ o, obj_get k o = Some VNull → get (VStr k) (VObj o) d = VNull)
  ∧ (∀ o, obj_get k o = None → inherited (VObj o) k = VUndef →
          get (VStr k) (VObj o) d = d)
  ∧ (∀ o, obj_get k o = None → inherited (VObj o) k ≠ VUndef →
          get (VStr k) (VObj o) d = inherited (VObj o) k).
Proof.
  intros Hk. split; [by apply get_no_dot|].
  split; [|split].
  - intros o Ho. rewrite get_no_dot by done. unfold get_prop.
    cbn [nullish get_own]. by rewrite Ho.
  - intros o Ho Hinh. rewrite get_no_dot by done. unfold get_prop.
    cbn [nullish get_own]. by rewrite Ho, Hinh.
  - intros o Ho Hinh. rewrite get_no_dot by done. unfold get_prop.
    cbn [nullish get_own]. rewrite Ho. by destruct (inherited (VObj o) k).
Qed.

Lemma get_plain_key_witness :
  let obj := VObj [("a", VNum 1)] in
  no_dot "a" = true
  ∧ get (env := Samples.sample_environment) (VStr "a") obj VNull
    = (if nullish obj then VNull
       else match get_prop (env := Samples.sample_environment) obj "a" with
            | VUndef => VNull
            | v => v
            end)
  ∧ (∀ o, obj_get "a" o = Some VNull →
          get (env := Samples.sample_environment) (VStr "a") (VObj o) VNull = VNull)
  ∧ (∀ o, obj_get "a" o = None →
          inherited (Environment := Samples.sample_environment) (VObj o) "a" = VUndef →
          get (env := Samples.sample_environment) (VStr "a") (VObj o) VNull = VNull)
  ∧ (∀ o, obj_get "a" o = None →
          inherited (Environment := Samples.sample_environment) (VObj o) "a" ≠ VUndef →
          get (env := Samples.sample_environment) (VStr "a") (VObj o) VNull
          = inherited (Environment := Samples.sample_environment) (VObj o) "a").
Proof.
  intros obj. split; [reflexivity|].
  apply (get_plain_key (env := Samples.sample_environment) "a" obj VNull).
  reflexivity.
Defined.

(** X5.  A dotted key is a path: reading [a.rest] from [obj] is reading
    [rest] from [obj[a]], with the same default, [obj[a]] being the own
    or the inherited property.  The walk stops with the default as soon
    as it meets [null] or [undefined]. *)
Theorem get_dotted_path {env : Environment} (a rest : string) (obj d : value) :
  no_dot a = true → nullish obj = false →
  get (VStr (a +:+ "." +:+ rest)) obj d = get (VStr rest) (get_prop obj a) d
  ∧ (nullish (get_prop obj a) = true → get (VStr (a +:+ "." +:+ rest)) obj d = d).
Proof.
  intros Ha Hobj. rewrite get_first_segment by done. split; [done|].
  intros Hnext. unfold get. by rewrite Hnext.
Qed.

Lemma get_dotted_path_witness :
  let obj := VObj [("a", VObj [("b", VNum 1)])] in
  no_dot "a" = true ∧ nullish obj = false
  ∧ get (env := Samples.sample_environment) (VStr "a.b") obj VUndef
    = get (env := Samples.sample_environment) (VStr "b")
        (get_prop (env := Samples.sample_environment) obj "a") VUndef
  ∧ (nullish (get_prop (env := Samples.sample_environment) obj "a") = true →
     get (env := Samples.sample_environment) (VStr "a.b") obj VUndef = VUndef).
Proof.
  intros obj. split; [reflexivity|]. split; [reflexivity|].
  apply (get_dotted_path (env := Samples.sample_environment) "a" "b" obj VUndef);
    reflexivity.
Defined.

(** X6.  With a key without a dot, [call(obj, key, ...args)] returns
    what the method [obj[key]] returns, called on [obj] with the
    arguments, when [obj[key]], own or inherited, is a function, and
    [undefined] in every other case, a [null] or [undefined] receiver
    included.  The callables of the model do not throw, so neither does
    the call. *)
Theorem call_plain_key {env : Environment} (obj : value) (k : string) (args : list value) :
  no_dot k = true →
  call obj (VStr k) args
  = match (if nullish obj then VUndef else get_prop obj k) with
    | VFun f => Ok (call_fn f obj args)
    | _ => Ok VUndef
    end.
Proof.
  intros Hk. unfold call. rewrite get_no_dot by done.
  destruct (nullish obj) eqn:Hobj; [done|].
  destruct (get_prop obj k) as [ | | b | n | | s | items | props | f | sw | bw ] eqn:Hget;
    try done.
  unfold invoke, get_member. rewrite Hobj.
  cbn [bind to_property_key to_string isFunc]. by rewrite Hget.
Qed.

Lemma call_plain_key_witness :
  let obj := VObj [("contains", VFun Samples.always_true)] in
  no_dot "contains" = true
  ∧ call (env := Samples.sample_environment) obj (VStr "contains") [VNum 1]
    = match (if nullish obj then VUndef
             else get_prop (env := Samples.sample_environment) obj "contains") with
      | VFun f => Ok (call_fn (Environment := Samples.sample_environment) f obj [VNum 1])
      | _ => Ok VUndef
      end.
Proof.
  intros obj. split; [reflexivity|].
  apply (call_plain_key (env := Samples.sample_environment) obj "contains" [VNum 1]).
  reflexivity.
Defined.

(** X7.  With a dotted key, [call] finds the function at the end of the
    path and then calls [obj[key]] with the key unsplit: when [obj] has
    no property of that full name, the call throws a [TypeError]. *)
Theorem call_dotted_path_throws {env : Environment} (obj : value) (a rest : string) (f : func)
    (args : list value) :
  no_dot a = true → nullish obj = false →
  get (VStr rest) (get_prop obj a) VUndef = VFun f →
  get_prop obj (a +:+ "." +:+ rest) = VUndef →
  call obj (VStr (a +:+ "." +:+ rest)) args = Throw (TypeError "is not a function").
Proof.
  intros Ha Hobj Hf Hfull. unfold call.
  rewrite get_first_segment, Hf by done. cbn [isFunc].
  unfold invoke, get_member. rewrite Hobj.
  cbn [bind to_property_key to_string]. by rewrite Hfull.
Qed.

Lemma call_dotted_path_throws_witness :
  let obj := VObj [("a", VObj [("b", VFun Samples.always_true)])] in
  no_dot "a" = true ∧ nullish obj = false
  ∧ get (env := Samples.sample_environment) (VStr "b")
      (get_prop (env := Samples.sample_environment) obj "a") VUndef
    = VFun Samples.always_true
  ∧ get_prop (env := Samples.sample_environment) obj "a.b" = VUndef
  ∧ call (env := Samples.sample_environment) obj (VStr "a.b") []
    = Throw (TypeError "is not a function").
Proof.
  intros obj. repeat (split; [reflexivity|]).
  apply (call_dotted_path_throws (env := Samples.sample_environment)
           obj "a" "b" Samples.always_true []); reflexivity.
Defined.

(* ===================================================================== *)
(** * Further properties of [collections.ts] *)
(* ===================================================================== *)

(** ** Objects in own-property order *)
Section OwnOrder.
Context {env : Environment}.
Implicit Types (o : object) (k : string) (v : value).

Lemma in_own_order_cons k ks :
  in_own_order (k :: ks) = true
  ↔ Forall (λ k', k' ≠ k ∧ key_precedes k' k = false) ks ∧ in_own_order ks = true.
Proof.
  simpl. rewrite andb_true_iff, forallb_forall, Forall_forall.
  split; intros [Hks ?]; (split; [|done]); intros k' Hk'.
  - apply list_elem_of_In, Hks, andb_prop in Hk' as [Hne Hpre].
    apply negb_true_iff in Hne, Hpre. by apply String.eqb_neq in Hne.
  - apply list_elem_of_In, Hks in Hk' as [Hne Hpre].
    apply String.eqb_neq in Hne. by rewrite Hne, Hpre.
Qed.

Lemma in_own_order_NoDup ks : in_own_order ks = true → NoDup ks.
Proof.
  induction ks as [|k ks IH]; [constructor|].
  rewrite in_own_order_cons. intros [Hks Hord]. constructor; [|by apply IH].
  intros Hin. rewrite Forall_forall in Hks. by destruct (Hks k Hin).
Qed.

Lemma in_own_order_app ks1 k ks2 :
  in_own_order (ks1 ++ k :: ks2) = true →
  Forall (λ k', k ≠ k' ∧ key_precedes k k' = false) ks1.
Proof.
  induction ks1 as [|a ks1 IH]; [constructor|].
  rewrite <- app_comm_cons, in_own_order_cons. intros [Hks Hord].
  constructor; [|by apply IH].
  rewrite Forall_forall in Hks. apply Hks, elem_of_app. right. left.
Qed.

Lemma in_own_order_get o1 k v o2 :
  in_own_order (Object_keys (o1 ++ (k, v) :: o2)) = true →
  obj_get k (o1 ++ (k, v) :: o2) = Some v.
Proof.
  unfold Object_keys. rewrite fmap_app, fmap_cons. intros Hord.
  apply in_own_order_app in Hord. simpl in Hord.
  induction o1 as [|[k' v'] o1 IH]; csimpl in *.
  - by rewrite String.eqb_refl.
  - apply Forall_cons in Hord as [[Hne _] Hord].
    apply String.eqb_neq in Hne. rewrite Hne. by apply IH.
Qed.

Lemma obj_create_last k v o :
  Forall (λ k', key_precedes k k' = false) (Object_keys o) →
  obj_create k v o = o ++ [(k, v)].
Proof.
  unfold Object_keys. induction o as [|[k' v'] o IH]; csimpl; intros Hpre; [done|].
  apply Forall_cons in Hpre as [-> Hpre]. by rewrite IH.
Qed.

(** Writing the properties of an object in own-property order, one after
    the other, into a new object gives the same object; writing some of
    them gives those, in the same order. *)
Lemma write_loop (keep : string * value → bool) (o2 : object) :
  ∀ o1,
    in_own_order (Object_keys (o1 ++ o2)) = true →
    "__proto__" ∉ Object_keys (o1 ++ o2) →
    foldl (λ res kv, if keep kv then obj_set kv.1 kv.2 res else res)
          (List.filter keep o1) o2
    = List.filter keep (o1 ++ o2).
Proof.
  induction o2 as [|[k v] o2 IH]; intros o1 Hord Hproto; simpl.
  - by rewrite app_nil_r.
  - assert (k ≠ "__proto__") as Hk.
    { intros ->. apply Hproto. unfold Object_keys. rewrite fmap_app, fmap_cons.
      apply elem_of_app. right. left. }
    pose proof Hord as Hord1. unfold Object_keys in Hord1.
    rewrite fmap_app, fmap_cons in Hord1. apply in_own_order_app in Hord1.
    rename Hord into Hord2, Hord1 into Hord.
    replace (o1 ++ (k, v) :: o2) with ((o1 ++ [(k, v)]) ++ o2) in Hord2, Hproto |- *
      by (by rewrite <- app_assoc).
    rewrite <- IH by done. f_equal.
    rewrite List.filter_app. simpl.
    destruct (keep (k, v)); [|by rewrite app_nil_r].
    assert (Forall (λ k', k ≠ k' ∧ key_precedes k k' = false)
                   (Object_keys (List.filter keep o1))) as Hres.
    { rewrite Forall_forall in Hord |- *. intros k' Hk'. apply Hord.
      unfold Object_keys in Hk'. apply list_elem_of_fmap in Hk' as ([k'' v''] & -> & Hin).
      apply list_elem_of_fmap. exists (k'', v''). split; [done|].
      apply list_elem_of_In, List.filter_In in Hin as [Hin _].
      by apply list_elem_of_In. }
    rewrite obj_set_other by done.
    assert (obj_has k (List.filter keep o1) = false) as ->.
    { apply obj_has_false. intros Hin. rewrite Forall_forall in Hres.
      by destruct (Hres k Hin). }
    apply obj_create_last. eapply Forall_impl; [exact Hres|]. by intros k' [_ ?].
Qed.

Lemma filter_all {A} (l : list A) : List.filter (λ _, true) l = l.
Proof. induction l as [|x l IH]; simpl; by rewrite ?IH. Qed.

Lemma foldl_ext_elem {A B} (f g : A → B → A) (l : list B) :
  (∀ a x, x ∈ l → f a x = g a x) → ∀ a, foldl f a l = foldl g a l.
Proof.
  induction l as [|x l IH]; intros Hfg a; simpl; [done|].
  rewrite Hfg by left. apply IH. intros a' x' Hx'. apply Hfg. by right.
Qed.

Lemma in_own_order_get_prop o k v :
  in_own_order (Object_keys o) = true → (k, v) ∈ o → get_prop (VObj o) k = v.
Proof.
  intros Hord Hin. apply list_elem_of_split in Hin as (o1 & o2 & ->).
  apply get_prop_own. by rewrite in_own_order_get.
Qed.

(** The loops of [pick] and [omit] over the keys of an object. *)
Lemma select_loop (o : object) (keep : string → value → bool) :
  in_own_order (Object_keys o) = true →
  "__proto__" ∉ Object_keys o →
  foldl (λ result key,
           let value := get_prop (VObj o) key in
           if keep key value then obj_set key value result else result)
        [] (Object_keys o)
  = List.filter (λ kv, keep kv.1 kv.2) o.
Proof.
  intros Hord Hproto. unfold Object_keys. rewrite foldl_fmap.
  pose proof (write_loop (λ kv, keep kv.1 kv.2) o [] Hord Hproto) as Hloop.
  simpl in Hloop. rewrite <- Hloop.
  apply foldl_ext_elem. intros res [k v] Hin. cbn [fst snd]. cbv zeta.
  by rewrite (in_own_order_get_prop o k v).
Qed.

End OwnOrder.

(** ** [pick] and [omit] *)
Section PickOmit.
Context {env : Environment}.

Lemma select_loop_get (obj : value) (keep : string → value → bool) (ks : list string) :
  "__proto__" ∉ ks →
  ∀ (result : object) (k : string),
    obj_get k (foldl (λ result key,
                        let value := get_prop obj key in
                        if keep key value then obj_set key value result else result)
                     result ks)
    = if decide (k ∈ ks) then
        if keep k (get_prop obj k) then Some (get_prop obj k) else obj_get k result
      else obj_get k result.
Proof.
  induction ks as [|k0 ks IH]; intros Hproto result k; simpl; [done|].
  apply not_elem_of_cons in Hproto as [Hk0 Hproto].
  rewrite IH by done. destruct (decide (k = k0)) as [->|Hne].
  - rewrite (decide_True (P := k0 ∈ k0 :: ks)) by left.
    destruct (keep k0 (get_prop obj k0)); [|by destruct (decide _)].
    rewrite obj_get_set_eq by done. by destruct (decide _).
  - assert (obj_get k (if keep k0 (get_prop obj k0)
                       then obj_set k0 (get_prop obj k0) result else result)
            = obj_get k result) as ->.
    { destruct (keep _ _); [|done]. apply obj_get_set_ne. congruence. }
    destruct (decide (k ∈ ks)) as [Hin|Hnin].
    + by rewrite decide_True by (by right).
    + by rewrite decide_False by (by intros [?|?]%elem_of_cons).
Qed.

Lemma select_loop_NoDup (obj : value) (keep : string → value → bool) (ks : list string) :
  ∀ result : object,
    NoDup (Object_keys result) →
    NoDup (Object_keys
             (foldl (λ result key,
                       let value := get_prop obj key in
                       if keep key value then obj_set key value result else result)
                    result ks)).
Proof.
  induction ks as [|k0 ks IH]; intros result Hnd; simpl; [done|].
  apply IH. destruct (keep _ _); [by apply obj_set_NoDup | done].
Qed.

Lemma omit_array (obj : value) (paths : list value) :
  omit obj (VArr paths)
  = foldl (λ result key,
             let value := get_prop obj key in
             if (λ key _, negb (includes_string paths key)) key value
             then obj_set key value result else result)
          [] (for_in_keys obj).
Proof. reflexivity. Qed.

Lemma omit_function (obj : value) (f : func) :
  omit obj (VFun f)
  = foldl (λ result key,
             let value := get_prop obj key in
             if (λ key value, negb (truthy (call_fn f VUndef [value; VStr key]))) key value
             then obj_set key value result else result)
          [] (for_in_keys obj).
Proof. reflexivity. Qed.

Lemma pick_function (obj : value) (f : func) :
  pick obj (VFun f)
  = foldl (λ result key,
             let value := get_prop obj key in
             if (λ key value, truthy (call_fn f VUndef [value; VStr key])) key value
             then obj_set key value result else result)
          [] (for_in_keys obj).
Proof.
  unfold pick. destruct (nullish obj) eqn:Hobj; [|done]. by destruct obj.
Qed.

Lemma omit_no_selector (obj paths : value) :
  Array_isArray paths = false → isFunc paths = false → omit obj paths = [].
Proof.
  intros Harr Hfun. unfold omit.
  induction (for_in_keys obj) as [|k ks IH]; [done|].
  simpl. by destruct paths.
Qed.

Lemma includes_string_none (paths : list value) (k : string) :
  Forall (λ p, isString p = false) paths → includes_string paths k = false.
Proof.
  unfold includes_string. induction 1 as [|p paths Hp _ IH]; simpl; [done|].
  rewrite IH. by destruct p.
Qed.

End PickOmit.

(** X8.  Of a value none of whose enumerable keys is [__proto__],
    [omit] with a list of keys returns an object that has the keys the
    loop [for (const key in obj)] visits, the listed ones left out, each
    with the value [obj[key]].  A listed key counts only when it is a
    string: a list of numbers omits nothing.  With a selector that is
    neither an array nor a function, a single key given as a string for
    one, the result is the empty object. *)
Theorem omit_listed_keys {env : Environment} (obj : value) (paths : list value) :
  ordinary_keys (for_in_keys obj) = true →
  let omitted := omit obj (VArr paths) in
  NoDup (Object_keys omitted)
  ∧ (∀ k, obj_get k omitted
          = if decide (k ∈ for_in_keys obj) then
              if includes_string paths k then None else Some (get_prop obj k)
            else None)
  ∧ (Forall (λ p, isString p = false) paths →
     ∀ k, k ∈ for_in_keys obj → obj_get k omitted = Some (get_prop obj k))
  ∧ (∀ selector, Array_isArray selector = false → isFunc selector = false →
                 omit obj selector = []).
Proof.
  intros Hproto%ordinary_keys_elem omitted. unfold omitted. rewrite omit_array.
  set (keep := λ (key : string) (_ : value), negb (includes_string paths key)).
  split; [apply (select_loop_NoDup obj keep); constructor|].
  split.
  { intros k. rewrite (select_loop_get obj keep) by done. unfold keep. simpl.
    by destruct (includes_string paths k). }
  split; [|apply omit_no_selector].
  intros Hpaths k Hk. rewrite (select_loop_get obj keep), decide_True by done.
  unfold keep. by rewrite includes_string_none.
Qed.

Lemma omit_listed_keys_witness :
  let obj := VObj [("a", VNum 1); ("b", VNum 2); ("c", VNum 3)] in
  let paths := [VStr "b"; VNum 7] in
  ordinary_keys (for_in_keys obj) = true
  ∧ (let omitted := omit (env := Samples.sample_environment) obj (VArr paths) in
     NoDup (Object_keys omitted)
     ∧ (∀ k, obj_get k omitted
             = if decide (k ∈ for_in_keys obj) then
                 if includes_string paths k then None
                 else Some (get_prop (env := Samples.sample_environment) obj k)
               else None)
     ∧ (Forall (λ p, isString (env := Samples.sample_environment) p = false) paths →
        ∀ k, k ∈ for_in_keys obj →
             obj_get k omitted
             = Some (get_prop (env := Samples.sample_environment) obj k))
     ∧ (∀ selector, Array_isArray selector = false → isFunc selector = false →
                    omit (env := Samples.sample_environment) obj selector = [])).
Proof.
  intros obj paths. split; [reflexivity|].
  apply (omit_listed_keys (env := Samples.sample_environment) obj paths).
  reflexivity.
Defined.

(** X9.  On an object in own-property order that has no property
    [__proto__] of its own, [pick] with a predicate keeps the properties
    the predicate accepts and [omit] those it rejects, in the order they
    have in the object; [omit] with a list keeps the properties whose
    key is not listed.  So every property goes to exactly one of
    [pick(obj, f)] and [omit(obj, f)]. *)
Theorem pick_omit_partition {env : Environment} (o : object) (f : func)
    (paths : list value) :
  in_own_order (Object_keys o) = true →
  ordinary_keys (Object_keys o) = true →
  let accepts := λ kv : string * value, truthy (call_fn f VUndef [kv.2; VStr kv.1]) in
  pick (VObj o) (VFun f) = List.filter accepts o
  ∧ omit (VObj o) (VFun f) = List.filter (λ kv, negb (accepts kv)) o
  ∧ omit (VObj o) (VArr paths) = List.filter (λ kv, negb (includes_string paths kv.1)) o
  ∧ pick (VObj o) (VFun f) ++ omit (VObj o) (VFun f) ≡ₚ o.
Proof.
  intros Hord Hproto%ordinary_keys_elem accepts.
  assert (pick (VObj o) (VFun f) = List.filter accepts o) as Hpick.
  { rewrite pick_function. cbn [for_in_keys].
    by rewrite (select_loop o (λ key value, truthy (call_fn f VUndef [value; VStr key]))). }
  assert (omit (VObj o) (VFun f) = List.filter (λ kv, negb (accepts kv)) o) as Homit.
  { rewrite omit_function. cbn [for_in_keys].
    by rewrite (select_loop o
                  (λ key value, negb (truthy (call_fn f VUndef [value; VStr key])))). }
  split; [done|]. split; [done|]. split.
  { rewrite omit_array. cbn [for_in_keys].
    by rewrite (select_loop o (λ key _, negb (includes_string paths key))). }
  rewrite Hpick, Homit. clear.
  induction o as [|kv o IH]; simpl; [done|].
  destruct (accepts kv); simpl.
  - by constructor.
  - rewrite <- Permutation_middle. by constructor.
Qed.

Lemma pick_omit_partition_witness :
  let o := [("0", VNum 0); ("a", VNum 1); ("b", VNull)] in
  in_own_order (Object_keys o) = true
  ∧ ordinary_keys (Object_keys o) = true
  ∧ let accepts := λ kv : string * value,
         truthy (call_fn (Environment := Samples.sample_environment)
                   Samples.identity VUndef [kv.2; VStr kv.1]) in
    pick (env := Samples.sample_environment) (VObj o) (VFun Samples.identity)
    = List.filter accepts o
    ∧ omit (env := Samples.sample_environment) (VObj o) (VFun Samples.identity)
      = List.filter (λ kv, negb (accepts kv)) o
    ∧ omit (env := Samples.sample_environment) (VObj o) (VArr [VStr "a"])
      = List.filter (λ kv, negb (includes_string [VStr "a"] kv.1)) o
    ∧ pick (env := Samples.sample_environment) (VObj o) (VFun Samples.identity)
      ++ omit (env := Samples.sample_environment) (VObj o) (VFun Samples.identity) ≡ₚ o.
Proof.
  intros o. split; [reflexivity|]. split; [reflexivity|].
  apply (pick_omit_partition (env := Samples.sample_environment) o Samples.identity
           [VStr "a"]); reflexivity.
Defined.

(** ** [clone] *)
Section Clone.
Context {env : Environment}.

Lemma clone_plain (x : value) (deep : bool) : plain x = true → clone x deep = x.
Proof.
  induction x as [ | | b | n | | s | items IH | props IH | f | sw | bw ] using value_nested_ind;
    intros Hplain; try done.
  - simpl. destruct deep; [|done]. simpl. f_equal.
    simpl in Hplain. induction IH as [|item items Hitem _ IHitems]; [done|].
    apply andb_prop in Hplain as [Hitem' Hitems]. by rewrite Hitem, IHitems.
  - cbn -[get_prop] in Hplain. apply andb_prop in Hplain as [Hplain Hvalues].
    apply andb_prop in Hplain as [Hplain Hclone]. apply negb_true_iff in Hclone.
    apply andb_prop in Hplain as [Hplain _].
    apply andb_prop in Hplain as [Hord Hproto].
    apply negb_true_iff, obj_has_false in Hproto.
    cbn [clone]. destruct (isObject (VObj props)); [|done].
    rewrite Hclone. f_equal.
    pose proof (write_loop (λ _, true) props [] Hord Hproto) as Hloop.
    simpl in Hloop. rewrite filter_all in Hloop. rewrite <- Hloop at 2.
    clear Hloop Hord Hclone Hproto. generalize (@nil (string * value)).
    induction IH as [|[key obj_key] props Hkey _ IHprops]; intros copy; [done|].
    apply andb_prop in Hvalues as [Hvalue Hvalues]. simpl in Hkey, Hvalue.
    rewrite IHprops by done. simpl. f_equal.
    destruct deep; [by rewrite Hkey | done].
Qed.

(** X10.  What [clone] returns has the contents of its argument: for a
    value whose objects, at any depth, are in own-property order, have
    no property [__proto__] or [toString] of their own and have no
    method [clone], own or inherited, the result has the same elements
    and the same properties with the same values in the same order, be
    the copy shallow or deep; and so has the array [cloneArray] returns.
    (Values carry no identity: that the result is a new object is not
    part of the statement.) *)
Theorem clone_copies (x : value) (deep : bool) :
  plain x = true →
  clone x deep = x
  ∧ (∀ arr, x = VArr arr → cloneArray arr deep = arr).
Proof.
  intros Hplain. split; [by apply clone_plain|].
  intros arr ->. unfold cloneArray. destruct deep; [|done]. simpl.
  simpl in Hplain. induction arr as [|item arr IH]; [done|].
  apply andb_prop in Hplain as [Hitem Harr]. csimpl.
  by rewrite clone_plain, IH.
Qed.

End Clone.

Lemma clone_copies_witness :
  let x := VObj [("1", VNull); ("a", VArr [VNum 1; VObj [("b", VStr "c")]])] in
  plain (env := Samples.sample_environment) x = true
  ∧ clone (env := Samples.sample_environment) x true = x
  ∧ (∀ arr, x = VArr arr → cloneArray (env := Samples.sample_environment) arr true = arr).
Proof.
  intros x. split; [reflexivity|].
  apply (clone_copies (env := Samples.sample_environment) x true). reflexivity.
Defined.

(** ** [filter], [find], [findRight], [map] *)
Section Iteratees.
Context {env : Environment}.
Variable eq : value → value → bool.

Lemma Array_filter_sublist (cb : value → nat → value) (items : list value) :
  ∀ i, Array_filter cb items i `sublist_of` items.
Proof.
  induction items as [|x items IH]; intros i; simpl; [constructor|].
  destruct (truthy (cb x i)); by constructor.
Qed.

Lemma Array_filter_index_free (cb : value → value) (items : list value) :
  ∀ i, Array_filter (λ x _, cb x) items i = List.filter (λ x, truthy (cb x)) items.
Proof.
  induction items as [|x items IH]; intros i; simpl; [done|]. by rewrite IH.
Qed.

Lemma Array_find_head (cb : value → nat → value) (items : list value) :
  ∀ i, Array_find cb items i = default VUndef (head (Array_filter cb items i)).
Proof.
  induction items as [|x items IH]; intros i; simpl; [done|].
  destruct (truthy (cb x i)); [done | apply IH].
Qed.

(** X11.  With a selector that has no [toString] property of its
    own, [filter] returns some of the elements of the array, in the
    order they have there, or [undefined] when the selector is no
    function, string or object.  With a property name it keeps the
    elements whose property of that name, own or inherited, is truthy:
    [null] and [undefined] elements are left out, reading them is no
    error.  With a pattern it keeps the elements that match it, and an
    element matches when, for every key of the pattern, the equality
    oracle accepts the element's property and the pattern's.  Anything
    that is no array gives [undefined]. *)
Theorem filter_selects (fn : value) (items : list value) :
  printable fn = true →
  match Arrays.filter eq fn (VArr items) with
  | VArr kept => kept `sublist_of` items
  | VUndef => isFunc fn = false ∧ isString fn = false ∧ isObject fn = false
  | _ => False
  end
  ∧ (∀ name, Arrays.filter eq (VStr name) (VArr items)
             = VArr (List.filter (λ x, negb (nullish x) && truthy (get_prop x name)) items))
  ∧ (isObject fn = true →
     Arrays.filter eq fn (VArr items)
     = VArr (List.filter (Arrays.matches eq fn) items))
  ∧ (∀ x, Arrays.matches eq fn x = true
          ↔ ∀ key, key ∈ for_in_keys fn →
                   eq (if nullish x then VUndef else get_prop x key) (get_prop fn key)
                   = true)
  ∧ (∀ arr, Array_isArray arr = false → Arrays.filter eq fn arr = VUndef).
Proof.
  intros _. split.
  { unfold Arrays.filter. destruct (isFunc fn) eqn:Hfunc.
    - destruct fn; try done. apply Array_filter_sublist.
    - destruct (isString fn); [apply Array_filter_sublist|].
      destruct (isObject fn); [apply Array_filter_sublist | done]. }
  split.
  { intros name. unfold Arrays.filter.
    assert (isString (VStr name) = true) as -> by done. cbn [isFunc].
    rewrite (Array_filter_index_free (λ x, get_optional x name)). f_equal.
    apply List.filter_ext. intros x. unfold get_optional. by destruct (nullish x). }
  split.
  { intros Hobj. unfold Arrays.filter. rewrite Hobj.
    assert (isFunc fn = false) as -> by (by destruct fn).
    assert (isString fn = false) as ->.
    { unfold isObject in Hobj. unfold isString.
      apply andb_prop in Hobj as [_ Hobj]. apply String.eqb_eq in Hobj. by rewrite Hobj. }
    rewrite (Array_filter_index_free (λ x, VBool (Arrays.matches eq fn x))). done. }
  split.
  { intros x. unfold Arrays.matches. rewrite forallb_forall.
    split; intros Hall key Hkey; apply (Hall key); by apply list_elem_of_In. }
  intros arr Harr. by destruct arr.
Qed.

(** X12.  [find] returns the first element [filter] keeps, and
    [undefined] when it keeps none. *)
Theorem find_is_first_of_filter (fn : value) (items : list value) :
  Arrays.find eq fn (VArr items)
  = match Arrays.filter eq fn (VArr items) with
    | VArr kept => default VUndef (head kept)
    | _ => VUndef
    end.
Proof.
  unfold Arrays.find, Arrays.filter.
  destruct (isFunc fn).
  - destruct fn; try done. apply Array_find_head.
  - destruct (isString fn); [apply Array_find_head|].
    destruct (isObject fn); [apply Array_find_head | done].
Qed.

Lemma findRight_loop_last (fn : value) (cb : value → value) (items : list value) :
  (∀ x rest, Arrays.findRight_loop eq fn (x :: rest)
             = if truthy (cb x) then x else Arrays.findRight_loop eq fn rest) →
  Arrays.findRight_loop eq fn (reverse items)
  = default VUndef (last (List.filter (λ x, truthy (cb x)) items)).
Proof.
  intros Hstep. induction items as [|x items IH] using rev_ind; [done|].
  rewrite reverse_snoc, Hstep, List.filter_app. simpl.
  destruct (truthy (cb x)).
  - by rewrite last_snoc.
  - by rewrite app_nil_r.
Qed.

Lemma Array_filter_ext (cb : value → nat → value) (p : value → bool) (items : list value) :
  (∀ x i, truthy (cb x i) = p x) →
  ∀ i, Array_filter cb items i = List.filter p items.
Proof.
  intros Hcb. induction items as [|x items IH]; intros i; simpl; [done|].
  by rewrite Hcb, IH.
Qed.

(** X13.  [findRight] returns the last element [filter] keeps, and
    [undefined] when it keeps none.  It calls a function selector with
    the element alone, where [filter] also passes the index and the
    array: the two agree for a function that looks at the element
    only. *)
Theorem findRight_is_last_of_filter (fn : value) (items : list value) :
  (∀ f, fn = VFun f →
        ∀ x i, truthy (call_fn f VUndef [x; VNum (Z.of_nat i); VArr items])
               = truthy (call_fn f VUndef [x])) →
  Arrays.findRight eq fn (VArr items)
  = match Arrays.filter eq fn (VArr items) with
    | VArr kept => default VUndef (last kept)
    | _ => VUndef
    end.
Proof.
  intros Hfn. unfold Arrays.findRight, Arrays.filter.
  destruct (isFunc fn) eqn:Hfunc.
  { destruct fn as [ | | b | n | | s | a | props | f | sw | bw ]; try done.
    rewrite (Array_filter_ext _ (λ x, truthy (call_fn f VUndef [x]))) by (by apply Hfn).
    apply (findRight_loop_last _ (λ x, call_fn f VUndef [x])). done. }
  destruct (isString fn) eqn:Hstr.
  { rewrite (Array_filter_index_free (λ x, get_optional x (to_property_key fn))).
    apply findRight_loop_last. intros x rest. simpl. by rewrite Hfunc, Hstr. }
  destruct (isObject fn) eqn:Hobj.
  { rewrite (Array_filter_index_free (λ x, VBool (Arrays.matches eq fn x))).
    apply (findRight_loop_last _ (λ x, VBool (Arrays.matches eq fn x))).
    intros x rest. simpl. by rewrite Hfunc, Hstr, Hobj. }
  induction (reverse items) as [|x rest IH]; [done|].
  simpl. by rewrite Hfunc, Hstr, Hobj.
Qed.

Lemma Array_map_get_member (name : string) (items : list value) :
  ∀ i, Array_map (λ x _, get_member x (VStr name)) items i
       = if existsb nullish items
         then Throw (TypeError "Cannot read properties of undefined")
         else Ok ((λ x, get_prop x name) <$> items).
Proof.
  induction items as [|x items IH]; intros i; simpl; [done|].
  unfold get_member at 1. destruct (nullish x); [done|]. simpl.
  rewrite IH. by destruct (existsb nullish items).
Qed.

Lemma Array_map_total (g : nat → value → value) (items : list value) :
  ∀ i, Array_map (λ x i, Ok (g i x)) items i = Ok (imap (λ j, g (i + j)) items).
Proof.
  induction items as [|x items IH]; intros i; simpl; [done|].
  rewrite IH. simpl. rewrite Nat.add_0_r. do 2 f_equal.
  apply imap_ext. intros j y _. simpl. f_equal. lia.
Qed.

Lemma Array_map_index_free (g : value → value) (items : list value) :
  ∀ i, Array_map (λ x _, Ok (g x)) items i = Ok (g <$> items).
Proof.
  induction items as [|x items IH]; intros i; simpl; [done|]. by rewrite IH.
Qed.

(** X14.  [map] with a property name reads that property of every
    element, the own one or, when the element has none of that name, the
    inherited one, and throws a [TypeError] when an element is [null] or
    [undefined]: it reads [x[fn]] where [filter] and [find] read
    [x?.[fn]]. *)
Theorem map_property_name (name : string) (items : list value) :
  Arrays.map (VStr name) (VArr items)
  = if existsb nullish items
    then Throw (TypeError "Cannot read properties of undefined")
    else Ok (VArr ((λ x, get_prop x name) <$> items)).
Proof.
  unfold Arrays.map. rewrite Array_map_get_member.
  by destruct (existsb nullish items).
Qed.

(** X15.  [map] with a function returns an array with one result for
    each element, in order, the function being given the element, its
    index and the array; on an object it returns one result for each
    own property, in key order, the function being given the value, the
    key and the object.  A selector that is neither a function nor a
    string makes [map] throw on an array that has an element, and is not
    looked at on the empty array.  A value that is neither array nor
    object gives [undefined]. *)
Theorem map_by_cases (fn : value) :
  (∀ f items,
     Arrays.map (VFun f) (VArr items)
     = Ok (VArr (imap (λ i x, call_fn f VUndef [x; VNum (Z.of_nat i); VArr items]) items)))
  ∧ (∀ f o,
       isObject (VObj o) = true →
       Arrays.map (VFun f) (VObj o)
       = Ok (VArr ((λ key, call_fn f VUndef [get_prop (VObj o) key; VStr key; VObj o])
                   <$> Object_keys o)))
  ∧ (∀ x items,
       isFunc fn = false → isString fn = false →
       Arrays.map fn (VArr (x :: items)) = Throw (TypeError "fn is not a function"))
  ∧ Arrays.map fn (VArr []) = Ok (VArr [])
  ∧ (∀ x, Array_isArray x = false → isObject x = false → Arrays.map fn x = Ok VUndef).
Proof.
  split.
  { intros f items. unfold Arrays.map.
    by rewrite (Array_map_total
                  (λ i x, call_fn f VUndef [x; VNum (Z.of_nat i); VArr items])). }
  split.
  { intros f o Hobj. unfold Arrays.map. rewrite Hobj. simpl for_in_keys.
    rewrite (Array_map_index_free
               (λ key, call_fn f VUndef
                         [get_prop (VObj o) (to_property_key key); key; VObj o])).
    simpl. by rewrite <- list_fmap_compose. }
  split.
  { intros x items Hfunc Hstr. by destruct fn. }
  split; [done|].
  intros x Harr Hobj. unfold Arrays.map. rewrite Hobj. by destruct x.
Qed.

End Iteratees.

Lemma filter_selects_witness :
  let fn := VObj [("a", VNum 1)] in
  let items := [VObj [("a", VNum 1); ("b", VNum 2)]; VNull; VObj [("a", VNum 2)]] in
  printable fn = true
  ∧ match Arrays.filter (env := Samples.sample_environment) Samples.eq fn (VArr items) with
    | VArr kept => kept `sublist_of` items
    | VUndef =>
        isFunc fn = false
        ∧ isString (env := Samples.sample_environment) fn = false
        ∧ isObject (env := Samples.sample_environment) fn = false
    | _ => False
    end
  ∧ (∀ name,
       Arrays.filter (env := Samples.sample_environment) Samples.eq (VStr name) (VArr items)
       = VArr (List.filter
                 (λ x, negb (nullish x)
                       && truthy (get_prop (env := Samples.sample_environment) x name))
                 items))
  ∧ (isObject (env := Samples.sample_environment) fn = true →
     Arrays.filter (env := Samples.sample_environment) Samples.eq fn (VArr items)
     = VArr (List.filter (Arrays.matches (env := Samples.sample_environment) Samples.eq fn)
               items))
  ∧ (∀ x, Arrays.matches (env := Samples.sample_environment) Samples.eq fn x = true
          ↔ ∀ key, key ∈ for_in_keys fn →
                   Samples.eq
                     (if nullish x then VUndef
                      else get_prop (env := Samples.sample_environment) x key)
                     (get_prop (env := Samples.sample_environment) fn key)
                   = true)
  ∧ (∀ arr, Array_isArray arr = false →
            Arrays.filter (env := Samples.sample_environment) Samples.eq fn arr = VUndef).
Proof.
  intros fn items. split; [reflexivity|].
  apply (filter_selects (env := Samples.sample_environment) Samples.eq fn items).
  reflexivity.
Defined.

Lemma findRight_is_last_of_filter_witness :
  let items := [VNum 0; VNum 3; VNull; VNum 5; VStr ""] in
  (∀ f, VFun Samples.identity = VFun f →
        ∀ x i, truthy (call_fn (Environment := Samples.sample_environment) f VUndef
                         [x; VNum (Z.of_nat i); VArr items])
               = truthy (call_fn (Environment := Samples.sample_environment) f VUndef [x]))
  ∧ Arrays.findRight (env := Samples.sample_environment) Samples.eq
      (VFun Samples.identity) (VArr items)
    = match Arrays.filter (env := Samples.sample_environment) Samples.eq
              (VFun Samples.identity) (VArr items) with
      | VArr kept => default VUndef (last kept)
      | _ => VUndef
      end.
Proof.
  intros items.
  assert (∀ f, VFun Samples.identity = VFun f →
               ∀ x i, truthy (call_fn (Environment := Samples.sample_environment) f VUndef
                                [x; VNum (Z.of_nat i); VArr items])
                      = truthy (call_fn (Environment := Samples.sample_environment) f
                                  VUndef [x])) as Hfn.
  { intros f [= <-] x i. reflexivity. }
  split; [exact Hfn|].
  apply (findRight_is_last_of_filter (env := Samples.sample_environment) Samples.eq
           (VFun Samples.identity) items Hfn).
Defined.

(** ** [flattenArray]: what stays, and complete flattening *)
Section FlattenLeaves.

Lemma leaves_cons (e : value) (l : list value) :
  leaves (VArr (e :: l)) = leaves e ++ leaves (VArr l).
Proof. reflexivity. Qed.

Lemma leaves_app (l1 l2 : list value) :
  leaves (VArr (l1 ++ l2)) = leaves (VArr l1) ++ leaves (VArr l2).
Proof.
  induction l1 as [|e l1 IH]; [done|].
  rewrite <- app_comm_cons, !leaves_cons, IH. by rewrite app_assoc.
Qed.

Lemma leaves_not_array (x : value) : isArray x = false → leaves x = [x].
Proof. by destruct x. Qed.

Lemma leaves_not_arrays (l : list value) :
  Forall (λ y, isArray y = false) l → leaves (VArr l) = l.
Proof.
  induction 1 as [|x l Hx _ IH]; [done|].
  by rewrite leaves_cons, IH, (leaves_not_array x).
Qed.

Lemma leaves_are_not_arrays (x : value) : Forall (λ y, isArray y = false) (leaves x).
Proof.
  induction x as [ | | b | n | | s | items IH | props IH | f | sw | bw ] using value_nested_ind;
    try (by repeat constructor).
  induction IH as [|e items He _ IHitems]; [constructor|].
  rewrite leaves_cons. by apply Forall_app.
Qed.

Lemma leaves_not_empty (x : value) : has_empty x = false → leaves x ≠ [].
Proof.
  induction x as [ | | b | n | | s | items IH | props IH | f | sw | bw ] using value_nested_ind;
    try done.
  intros [Hne Hitems]%has_empty_VArr.
  destruct items as [|e items]; [done|].
  apply Forall_cons in IH as [IHe _]. apply Forall_cons in Hitems as [He _].
  rewrite leaves_cons. intros [Hnil _]%app_eq_nil. by apply IHe.
Qed.

Lemma not_array_no_empty (x : value) : isArray x = false → has_empty x = false.
Proof. by destruct x. Qed.

(** The loop replaces arrays by what they hold: the elements that are
    no arrays stay, in their order. *)
Lemma flattenArray_loop_leaves (fuel : nat) :
  ∀ (depth : value) (arr : list value) (i : nat) (r : list value),
    flattenArray_loop fuel depth arr i = Some r →
    leaves (VArr r) = leaves (VArr arr).
Proof.
  induction fuel as [|fuel IH]; intros depth arr i r Hr; [done|].
  simpl in Hr. destruct (arr !! i) as [x|] eqn:Hi; [|by injection Hr as <-].
  destruct x as [ | | b | n | | s | items | props | f | sw | bw ];
    try (by apply IH in Hr).
  assert (∃ items', (if negb (truthy (next_depth depth)) then Some items
                     else flattenArray_loop fuel (next_depth depth) items 0)
                    = Some items'
                    ∧ leaves (VArr items') = leaves (VArr items)) as (items' & Heq & Hitems').
  { destruct (negb (truthy (next_depth depth))); [by exists items|].
    destruct (flattenArray_loop fuel (next_depth depth) items 0) as [items'|] eqn:Hnested;
      [|done].
    exists items'. split; [done|]. by apply IH in Hnested. }
  rewrite Heq in Hr. apply IH in Hr. rewrite Hr. unfold splice1.
  rewrite <- (take_drop_middle _ _ _ Hi) at 3.
  rewrite !leaves_app, leaves_cons, Hitems'. reflexivity.
Qed.

Lemma flattenArray_loop_no_arrays (fuel : nat) :
  ∀ (depth : value) (arr : list value) (i : nat) (r : list value),
    Forall (λ x, isArray x = false) arr →
    flattenArray_loop fuel depth arr i = Some r → r = arr.
Proof.
  induction fuel as [|fuel IH]; intros depth arr i r Harr Hr; [done|].
  simpl in Hr. destruct (arr !! i) as [x|] eqn:Hi; [|by injection Hr as <-].
  rewrite Forall_forall in Harr.
  pose proof (Harr x (list_elem_of_lookup_2 _ _ _ Hi)) as Hx.
  destruct x; try done; apply IH in Hr; try done; by apply Forall_forall.
Qed.

Lemma flattenArray_default (A : list value) (depth : value) :
  flattenArray A depth = flattenArray A (depth_or_default depth).
Proof.
  unfold flattenArray. by assert (depth_or_default (depth_or_default depth)
                                  = depth_or_default depth) as -> by (by destruct depth).
Qed.

Lemma flattenArray_falsy (A : list value) (depth : value) :
  truthy (depth_or_default depth) = false → flattenArray A depth = A.
Proof. intros Hdepth. unfold flattenArray. cbv zeta. by rewrite Hdepth. Qed.

(** X16.  Whatever the depth, [flattenArray] keeps the elements that
    are no arrays, at any level of nesting, each as often as it occurs
    and in the order of the input: it only takes arrays apart.  An array
    that has no array among its elements comes back as it is. *)
Theorem flattenArray_keeps_leaves (A : list value) (depth : value) :
  leaves (VArr (flattenArray A depth)) = leaves (VArr A)
  ∧ (Forall (λ x, isArray x = false) A → flattenArray A depth = A).
Proof.
  rewrite (flattenArray_default A depth).
  destruct (truthy (depth_or_default depth)) eqn:Hdepth.
  - pose proof (flattenArray_loop_run A _ Hdepth) as Hrun. split.
    + by eapply flattenArray_loop_leaves.
    + intros HA. by eapply flattenArray_loop_no_arrays.
  - by rewrite <- (flattenArray_default A depth), flattenArray_falsy.
Qed.

Lemma endless_next_depth (depth : value) :
  endless depth = true →
  endless (next_depth depth) = true ∧ truthy (next_depth depth) = true.
Proof.
  unfold endless. destruct depth as [ | | b | n | | s | items | props | f | sw | bw ]; try done.
  - simpl. by intros [-> _]%andb_prop.
  - simpl. intros [Hn Hneg]%andb_prop. apply Z.ltb_lt in Hneg.
    assert ((n - 1 =? 0)%Z = false) as -> by (apply Z.eqb_neq; lia).
    assert ((n - 1 <? 0)%Z = true) as -> by (apply Z.ltb_lt; lia). done.
  - simpl. by intros [-> _]%andb_prop.
Qed.

(** With a depth that never runs out, and no empty array in what is
    left to scan, the loop leaves no array behind. *)
Lemma flattenArray_loop_endless (fuel : nat) :
  ∀ (depth : value) (arr : list value) (i : nat) (r : list value),
    endless depth = true →
    flattenArray_loop fuel depth arr i = Some r →
    Forall (λ x, has_empty x = false) (drop i arr) →
    r = take i arr ++ leaves (VArr (drop i arr)).
Proof.
  induction fuel as [|fuel IH]; intros depth arr i r Hdepth Hr Hrest; [done|].
  simpl in Hr. destruct (arr !! i) as [x|] eqn:Hi.
  - pose proof (drop_S _ _ _ Hi) as Hdrop. rewrite Hdrop in Hrest |- *.
    apply Forall_cons in Hrest as [Hx Hrest].
    assert (isArray x = false →
            flattenArray_loop fuel depth arr (S i) = Some r →
            r = take i arr ++ leaves (VArr (x :: drop (S i) arr))) as Hskip.
    { intros Hnot Hr'. apply IH in Hr'; [|done..].
      rewrite Hr', (take_S_r _ _ _ Hi), <- app_assoc. f_equal.
      by rewrite leaves_cons, (leaves_not_array x). }
    destruct x as [ | | b | n | | s | items | props | f | sw | bw ];
      try (by apply Hskip).
    clear Hskip. destruct (endless_next_depth depth Hdepth) as [Hnext Htruthy].
    rewrite Htruthy in Hr. simpl in Hr.
    destruct (flattenArray_loop fuel (next_depth depth) items 0) as [items'|] eqn:Hnested;
      [|done].
    apply has_empty_VArr in Hx as Hitems. destruct Hitems as [Hne Hitems].
    apply IH in Hnested; [|by rewrite ?drop_0..].
    rewrite take_0, drop_0, app_nil_l in Hnested.
    pose proof (leaves_not_empty _ Hx) as Hleaves.
    pose proof (leaves_are_not_arrays (VArr items)) as Hflat.
    rewrite <- Hnested in Hleaves, Hflat.
    destruct items' as [|e items']; [done|].
    apply Forall_cons in Hflat as [He Hitems'].
    apply IH in Hr; [|done|].
    + rewrite Hr, (splice1_take _ _ _ _ Hi), (splice1_drop _ _ _ _ Hi).
      change (take 1 ((e :: items') ++ drop (S i) arr)) with [e].
      change (drop 1 ((e :: items') ++ drop (S i) arr)) with (items' ++ drop (S i) arr).
      rewrite <- app_assoc. f_equal.
      rewrite leaves_app, (leaves_not_arrays _ Hitems'), leaves_cons, <- Hnested.
      done.
    + rewrite (splice1_drop _ _ _ _ Hi).
      change (drop 1 ((e :: items') ++ drop (S i) arr)) with (items' ++ drop (S i) arr).
      apply Forall_app. split; [|done].
      eapply Forall_impl; [exact Hitems'|]. apply not_array_no_empty.
  - injection Hr as <-. apply lookup_ge_None_1 in Hi.
    rewrite take_ge, drop_ge by done. by rewrite app_nil_r.
Qed.

(** X17.  With a depth that never runs out ([true], or a negative
    number), [flattenArray] flattens completely an array that has no
    empty array inside: the result is the list of the elements that are
    no arrays, at any level of nesting, from left to right, and no array
    is left in it. *)
Theorem flattenArray_endless_depth (A : list value) (depth : value) :
  endless depth = true →
  Forall (λ x, has_empty x = false) A →
  flattenArray A depth = leaves (VArr A)
  ∧ Forall (λ x, isArray x = false) (flattenArray A depth).
Proof.
  intros Hdepth HA.
  assert (truthy depth = true) as Htruthy by (by apply andb_prop in Hdepth as [? _]).
  pose proof (flattenArray_loop_run A depth Htruthy) as Hrun.
  apply flattenArray_loop_endless in Hrun; [|by rewrite ?drop_0..].
  rewrite take_0, drop_0, app_nil_l in Hrun.
  split; [done|]. rewrite Hrun. apply leaves_are_not_arrays.
Qed.

End FlattenLeaves.

Lemma flattenArray_endless_depth_witness :
  let A := [VArr [VNum 1; VArr [VNum 2; VArr [VNum 3]]]; VNum 4] in
  endless (VBool true) = true
  ∧ Forall (λ x, has_empty x = false) A
  ∧ flattenArray A (VBool true) = leaves (VArr A)
  ∧ Forall (λ x, isArray x = false) (flattenArray A (VBool true)).
Proof.
  intros A.
  assert (Forall (λ x, has_empty x = false) A) as HA by (by repeat constructor).
  split; [reflexivity|]. split; [exact HA|].
  apply (flattenArray_endless_depth A (VBool true)); [reflexivity | exact HA].
Defined.

(** ** [index] and [contains] on arrays and strings *)
Section Search.
Context {env : Environment}.
Variable eq : value → value → bool.

Lemma pretty_Z_of_nat (i : nat) : pretty (Z.of_nat i) = pretty i.
Proof. by destruct i. Qed.

(** The scan of [index] over an array, from position [i] on. *)
Lemma index_scan_array (items : list value) (x : value) :
  (N.of_nat (length items) < 2 ^ 32)%N →
  ∀ (n i : nat),
    i + n = length items →
    ∃ r : Z,
      index_scan eq (VArr items) x n (Z.of_nat i) = VNum r
      ∧ (∀ j e, i ≤ j → (r = -1 ∨ Z.of_nat j < r)%Z →
                items !! j = Some e → eq x e = false)
      ∧ (r ≠ (-1)%Z →
         (Z.of_nat i ≤ r)%Z ∧ ∃ e, items !! Z.to_nat r = Some e ∧ eq x e = true).
Proof.
  intros Hlen. induction n as [|n IH]; intros i Hi.
  - exists (-1)%Z. split; [done|]. split; [|done].
    intros j e Hj _ He. apply lookup_lt_Some in He. lia.
  - destruct (lookup_lt_is_Some_2 items i) as [e He]; [lia|].
    cbn [index_scan]. unfold to_property_key. cbn [to_string].
    rewrite pretty_Z_of_nat, (get_prop_array items i e) by (done || lia).
    destruct (eq x e) eqn:Hxe.
    + exists (Z.of_nat i). split; [done|]. split.
      * intros j e' Hj [?|?]; lia.
      * intros _. split; [lia|]. exists e. by rewrite Nat2Z.id.
    + destruct (IH (S i)) as (r & Hr & Hbefore & Hfound); [lia|].
      replace (Z.of_nat i + 1)%Z with (Z.of_nat (S i)) by lia.
      exists r. split; [done|]. split.
      * intros j e' Hj Hjr He'.
        destruct (decide (j = i)) as [->|Hne]; [congruence|].
        apply (Hbefore j e'); [lia | done | done].
      * intros Hr'. destruct (Hfound Hr') as [Hle Hex]. split; [lia | done].
Qed.

Lemma call_no_delegation (name : string) (operand : value) (args : list value) :
  delegates name operand = false → call (VStr name) operand args = Ok VUndef.
Proof. unfold delegates, call. by intros ->. Qed.

Lemma index_array (items : list value) (x : value) (start : Z) :
  (Z.of_nat (length items) < 2 ^ 32)%Z →
  delegates "indexOf" (VArr items) = false →
  delegates "index" (VArr items) = false →
  let len := Z.of_nat (length items) in
  let from := if (start <? 0)%Z then Z.max (start + len) 0 else start in
  ∃ r : Z,
    index eq (VArr items) x start = Ok (VNum r)
    ∧ (∀ j e, (from ≤ Z.of_nat j)%Z → (r = -1 ∨ Z.of_nat j < r)%Z →
              items !! j = Some e → eq x e = false)
    ∧ (r ≠ (-1)%Z →
       (from ≤ r)%Z ∧ ∃ e, items !! Z.to_nat r = Some e ∧ eq x e = true).
Proof.
  intros Hlen HindexOf Hindex len from. unfold index.
  rewrite !call_no_delegation by done.
  cbn [bind nullish negb]. unfold get_member.
  cbn [nullish to_property_key to_string bind].
  change (get_prop (VArr items) "length") with (VNum len).
  cbn [to_number]. fold from.
  assert (0 ≤ from)%Z as Hfrom.
  { unfold from. destruct (Z.ltb_spec start 0); lia. }
  destruct (decide (from ≤ len)%Z) as [Hle|Hgt].
  - destruct (index_scan_array items x) with (n := Z.to_nat (len - from))
                                              (i := Z.to_nat from)
      as (r & Hr & Hbefore & Hfound); [lia | lia |].
    rewrite Z2Nat.id in Hr by done. exists r. split; [by rewrite Hr|]. split.
    + intros j e Hj. apply Hbefore. lia.
    + intros Hr'. destruct (Hfound Hr') as [? ?]. split; [lia | done].
  - replace (Z.to_nat (len - from)) with 0 by lia. simpl.
    exists (-1)%Z. split; [done|]. split; [|done].
    intros j e Hj _ He. apply lookup_lt_Some in He. lia.
Qed.

(** X18.  [index] first asks whether the operand, read as a path into
    the strings ['indexOf'] and ['index'], leads to a function.  On an
    array for which it does not, and which holds no object with a
    [toString] of its own, [index] returns the first position, from
    [start] on, of an element the equality oracle takes for [x], and
    [-1] when there is none; a negative [start] counts from the end of
    the array, and from the beginning when it reaches before it. *)
Theorem index_on_arrays (items : list value) (x : value) (start : Z) :
  (Z.of_nat (length items) < 2 ^ 32)%Z →
  printable (VArr items) = true →
  delegates "indexOf" (VArr items) = false →
  delegates "index" (VArr items) = false →
  let len := Z.of_nat (length items) in
  let from := if (start <? 0)%Z then Z.max (start + len) 0 else start in
  ∃ r : Z,
    index eq (VArr items) x start = Ok (VNum r)
    ∧ (∀ j e, (from ≤ Z.of_nat j)%Z → (r = -1 ∨ Z.of_nat j < r)%Z →
              items !! j = Some e → eq x e = false)
    ∧ (r ≠ (-1)%Z →
       (from ≤ r)%Z ∧ ∃ e, items !! Z.to_nat r = Some e ∧ eq x e = true).
Proof. intros Hlen _. by apply index_array. Qed.

(** X19.  On an array that, read as a path into the strings
    ['contains'], ['indexOf'] and ['index'], leads to no function, and
    which holds no object with a [toString] of its own, [contains] says
    whether the equality oracle takes some element for [y]. *)
Theorem contains_on_arrays (items : list value) (y : value) :
  (Z.of_nat (length items) < 2 ^ 32)%Z →
  printable (VArr items) = true →
  delegates "contains" (VArr items) = false →
  delegates "indexOf" (VArr items) = false →
  delegates "index" (VArr items) = false →
  contains eq (VArr items) y = Ok (VBool (existsb (eq y) items)).
Proof.
  intros Hlen _ Hcontains HindexOf Hindex. unfold contains.
  rewrite call_no_delegation by done. cbn [bind nullish negb].
  destruct (index_array items y 0 Hlen HindexOf Hindex) as (r & -> & Hbefore & Hfound).
  cbn [bind to_number].
  do 2 f_equal. destruct (decide (r = -1)%Z) as [->|Hr].
  - symmetry. apply not_true_is_false. intros Hex.
    apply existsb_exists in Hex as (e & Hin & He).
    apply list_elem_of_In, list_elem_of_lookup in Hin as [j Hj].
    rewrite (Hbefore j e) in He; [done | simpl; lia | by left | done].
  - destruct (Hfound Hr) as (Hle & e & He & Hxe). simpl in Hle.
    apply Z.leb_le in Hle as ->. symmetry. apply existsb_exists.
    exists e. split; [|done]. apply list_elem_of_In. by apply list_elem_of_lookup_2 in He.
Qed.

Lemma substring_past_end (s : string) :
  ∀ p m, String.length s ≤ p → String.substring p m s = "".
Proof.
  induction s as [|c s IH]; intros p m Hp.
  - by destruct p, m.
  - destruct p as [|p]; simpl in *; [lia|]. apply IH. lia.
Qed.

Lemma index_string (s : string) (x : value) (start : Z) :
  delegates "indexOf" (VStr s) = false →
  delegates "index" (VStr s) = false →
  let len := Z.of_nat (String.length s) in
  let from := if (start <? 0)%Z then Z.max (start + len) 0 else start in
  let needle := to_string x in
  ∃ r : Z,
    index eq (VStr s) x start = Ok (VNum r)
    ∧ (r ≠ (-1)%Z →
       (from ≤ r)%Z
       ∧ String.substring (Z.to_nat r) (String.length needle) s = needle
       ∧ ∀ p, (from ≤ Z.of_nat p < r)%Z →
              String.substring p (String.length needle) s ≠ needle)
    ∧ (r = (-1)%Z → needle ≠ "" →
       ∀ p, (from ≤ Z.of_nat p)%Z → String.substring p (String.length needle) s ≠ needle)
    ∧ ((len ≤ from)%Z → r = (-1)%Z)
    ∧ (r = (-1)%Z → needle = "" → (len ≤ from)%Z).
Proof.
  intros HindexOf Hindex len from needle. unfold index.
  rewrite !call_no_delegation by done.
  cbn [bind nullish negb]. unfold get_member.
  cbn [nullish to_property_key to_string bind].
  change (get_prop (VStr s) "length") with (VNum len).
  cbn [to_number]. fold from. fold needle.
  assert (0 ≤ from)%Z as Hfrom.
  { unfold from. destruct (Z.ltb_spec start 0); lia. }
  destruct (Z.leb_spec len from) as [Hle|Hlt].
  { exists (-1)%Z. split; [done|]. split; [done|]. split; [|done].
    intros _ Hneedle p Hp. rewrite substring_past_end by lia. done. }
  destruct (String.index (Z.to_nat from) needle s) as [i|] eqn:Hfound.
  - exists (Z.of_nat i). split; [done|].
    assert (Z.to_nat from ≤ i) as Hi.
    { destruct (decide (Z.to_nat from ≤ i)) as [?|Hn]; [done|].
      revert Hfound. generalize (Z.to_nat from) as n. clear. revert i.
      induction s as [|c s IH]; intros i n Hfound.
      - destruct n; [lia|done].
      - simpl in Hfound. destruct n as [|n]; [lia|].
        destruct (String.index n needle s) as [i'|] eqn:Hi'; [|done].
        injection Hfound as <-. apply IH in Hi'. lia. }
    split; [|split; [lia | split; lia]].
    intros _. rewrite Nat2Z.id. split; [lia|].
    split; [by apply (String.index_correct1 _ _ _ _ Hfound)|].
    intros p Hp. apply (String.index_correct2 _ _ _ _ Hfound); lia.
  - exists (-1)%Z. split; [done|]. split; [done|]. split; [|split; [lia|]].
    + intros _ Hneedle p Hp.
      apply (String.index_correct3 _ _ _ _ Hfound); [done | lia].
    + intros _ Hneedle. rewrite Hneedle in Hfound.
      apply String.index_correct4 in Hfound. unfold len. lia.
Qed.

(** X20.  On a string that, read as a dotted path into the strings
    ['indexOf'] and ['index'], leads to no function, and for a value [x]
    the model prints as the host does, [index] returns the first
    position, from [start] on, at which the string form of [x] occurs,
    and [-1] when it does not occur from there on.  When [start] is at
    or past the end the answer is [-1], for the empty string too. *)
Theorem index_on_strings (s : string) (x : value) (start : Z) :
  printable x = true →
  delegates "indexOf" (VStr s) = false →
  delegates "index" (VStr s) = false →
  let len := Z.of_nat (String.length s) in
  let from := if (start <? 0)%Z then Z.max (start + len) 0 else start in
  let needle := to_string x in
  ∃ r : Z,
    index eq (VStr s) x start = Ok (VNum r)
    ∧ (r ≠ (-1)%Z →
       (from ≤ r)%Z
       ∧ String.substring (Z.to_nat r) (String.length needle) s = needle
       ∧ ∀ p, (from ≤ Z.of_nat p < r)%Z →
              String.substring p (String.length needle) s ≠ needle)
    ∧ (r = (-1)%Z → needle ≠ "" →
       ∀ p, (from ≤ Z.of_nat p)%Z → String.substring p (String.length needle) s ≠ needle)
    ∧ ((len ≤ from)%Z → r = (-1)%Z)
    ∧ (r = (-1)%Z → needle = "" → (len ≤ from)%Z).
Proof. intros _. apply index_string. Qed.

(** X21.  On a string that, read as a dotted path into the strings
    ['contains'], ['indexOf'] and ['index'], leads to no function, and
    for a value [y] the model prints as the host does, [contains] says
    whether the string form of [y] occurs in it; the empty string
    contains nothing, not even the empty string. *)
Theorem contains_on_strings (s : string) (y : value) :
  printable y = true →
  delegates "contains" (VStr s) = false →
  delegates "indexOf" (VStr s) = false →
  delegates "index" (VStr s) = false →
  ∃ b : bool,
    contains eq (VStr s) y = Ok (VBool b)
    ∧ (b = true ↔
       s ≠ "" ∧ ∃ p, String.substring p (String.length (to_string y)) s = to_string y).
Proof.
  intros _ Hcontains HindexOf Hindex. unfold contains.
  rewrite call_no_delegation by done. cbn [bind nullish negb].
  destruct (index_string s y 0 HindexOf Hindex)
    as (r & -> & Hfound & Hnone & Hend & Hempty).
  cbn [bind to_number]. simpl in Hfound, Hnone, Hend, Hempty.
  eexists. split; [reflexivity|].
  destruct (decide (r = -1)%Z) as [->|Hr].
  - split; [done|]. intros [Hs [p Hp]]. exfalso.
    destruct (decide (to_string y = "")) as [Hy|Hy].
    + specialize (Hempty eq_refl Hy). destruct s; [done | simpl in Hempty; lia].
    + apply (Hnone eq_refl Hy p); [lia | done].
  - destruct (Hfound Hr) as (Hle & Hsub & _).
    apply Z.leb_le in Hle as Hle'. rewrite Hle'. split; [|done]. intros _. split.
    + intros ->. apply Hr, Hend. simpl. lia.
    + by eexists.
Qed.

End Search.

Lemma index_on_arrays_witness :
  let items := [VNum 1; VNum 2; VNum 1; VNum 2] in
  (Z.of_nat (length items) < 2 ^ 32)%Z
  ∧ printable (VArr items) = true
  ∧ delegates (env := Samples.sample_environment) "indexOf" (VArr items) = false
  ∧ delegates (env := Samples.sample_environment) "index" (VArr items) = false
  ∧ let len := Z.of_nat (length items) in
    let from := if (-3 <? 0)%Z then Z.max (-3 + len) 0 else (-3)%Z in
    ∃ r : Z,
      index (env := Samples.sample_environment) Samples.eq (VArr items) (VNum 1) (-3)
      = Ok (VNum r)
      ∧ (∀ j e, (from ≤ Z.of_nat j)%Z → (r = -1 ∨ Z.of_nat j < r)%Z →
                items !! j = Some e → Samples.eq (VNum 1) e = false)
      ∧ (r ≠ (-1)%Z →
         (from ≤ r)%Z ∧ ∃ e, items !! Z.to_nat r = Some e ∧ Samples.eq (VNum 1) e = true).
Proof.
  intros items. repeat (split; [reflexivity|]).
  apply (index_on_arrays (env := Samples.sample_environment) Samples.eq items (VNum 1) (-3));
    reflexivity.
Defined.

Lemma contains_on_arrays_witness :
  let items := [VStr "a"; VNull; VNum 2] in
  (Z.of_nat (length items) < 2 ^ 32)%Z
  ∧ printable (VArr items) = true
  ∧ delegates (env := Samples.sample_environment) "contains" (VArr items) = false
  ∧ delegates (env := Samples.sample_environment) "indexOf" (VArr items) = false
  ∧ delegates (env := Samples.sample_environment) "index" (VArr items) = false
  ∧ contains (env := Samples.sample_environment) Samples.eq (VArr items) VNull
    = Ok (VBool (existsb (Samples.eq VNull) items)).
Proof.
  intros items. repeat (split; [reflexivity|]).
  apply (contains_on_arrays (env := Samples.sample_environment) Samples.eq items VNull);
    reflexivity.
Defined.

Lemma index_on_strings_witness :
  let s := "hello world" in
  let x := VStr "o" in
  printable x = true
  ∧ delegates (env := Samples.sample_environment) "indexOf" (VStr s) = false
  ∧ delegates (env := Samples.sample_environment) "index" (VStr s) = false
  ∧ let len := Z.of_nat (String.length s) in
    let from := if (5 <? 0)%Z then Z.max (5 + len) 0 else 5%Z in
    let needle := to_string x in
    ∃ r : Z,
      index (env := Samples.sample_environment) Samples.eq (VStr s) x 5 = Ok (VNum r)
      ∧ (r ≠ (-1)%Z →
         (from ≤ r)%Z
         ∧ String.substring (Z.to_nat r) (String.length needle) s = needle
         ∧ ∀ p, (from ≤ Z.of_nat p < r)%Z →
                String.substring p (String.length needle) s ≠ needle)
      ∧ (r = (-1)%Z → needle ≠ "" →
         ∀ p, (from ≤ Z.of_nat p)%Z →
              String.substring p (String.length needle) s ≠ needle)
      ∧ ((len ≤ from)%Z → r = (-1)%Z)
      ∧ (r = (-1)%Z → needle = "" → (len ≤ from)%Z).
Proof.
  intros s x. repeat (split; [reflexivity|]).
  apply (index_on_strings (env := Samples.sample_environment) Samples.eq s x 5);
    reflexivity.
Defined.

Lemma contains_on_strings_witness :
  let s := "hello world" in
  let y := VNum 7 in
  printable y = true
  ∧ delegates (env := Samples.sample_environment) "contains" (VStr s) = false
  ∧ delegates (env := Samples.sample_environment) "indexOf" (VStr s) = false
  ∧ delegates (env := Samples.sample_environment) "index" (VStr s) = false
  ∧ ∃ b : bool,
      contains (env := Samples.sample_environment) Samples.eq (VStr s) y = Ok (VBool b)
      ∧ (b = true ↔
         s ≠ "" ∧ ∃ p, String.substring p (String.length (to_string y)) s = to_string y).
Proof.
  intros s y. repeat (split; [reflexivity|]).
  apply (contains_on_strings (env := Samples.sample_environment) Samples.eq s y);
    reflexivity.
Defined.

(** ** [flatten] on a mapping that is flat already *)
Section FlattenTwice.
Context {env : Environment}.

Lemma key_precedes_asym (k a : string) :
  key_precedes k a = true → key_precedes a k = false.
Proof.
  unfold key_precedes.
  destruct (array_index k) as [n|], (array_index a) as [na|]; try done.
  intros Hlt%N.ltb_lt. apply N.ltb_ge. lia.
Qed.

Lemma key_precedes_before (k a b : string) :
  key_precedes k a = true → key_precedes b a = false → key_precedes b k = false.
Proof.
  unfold key_precedes.
  destruct (array_index k) as [n|], (array_index a) as [na|],
           (array_index b) as [nb|]; try done.
  intros Hlt%N.ltb_lt Hge%N.ltb_ge. apply N.ltb_ge. lia.
Qed.

Lemma key_create_Forall (P : string → Prop) (k : string) (ks : list string) :
  Forall P (key_create k ks) ↔ P k ∧ Forall P ks.
Proof.
  induction ks as [|a ks IH]; simpl.
  - rewrite Forall_singleton. split; [by intros ? | by intros [? _]].
  - destruct (key_precedes k a).
    + by rewrite Forall_cons.
    + rewrite !Forall_cons, IH. tauto.
Qed.

Lemma in_own_order_key_create (k : string) (ks : list string) :
  k ∉ ks → in_own_order ks = true → in_own_order (key_create k ks) = true.
Proof.
  induction ks as [|a ks IH]; intros Hk Hord; [done|].
  apply not_elem_of_cons in Hk as [Hka Hk].
  apply in_own_order_cons in Hord as [Ha Hord]. simpl.
  destruct (key_precedes k a) eqn:Hpre.
  - apply in_own_order_cons. split; [|by apply in_own_order_cons].
    constructor; [split; [done | by apply key_precedes_asym]|].
    rewrite Forall_forall in Ha |- *. intros b Hb.
    destruct (Ha b Hb) as [_ Hba]. split; [by intros -> |].
    by apply (key_precedes_before k a b).
  - apply in_own_order_cons. split; [|by apply IH].
    apply key_create_Forall. done.
Qed.

Lemma obj_set_in_own_order (k : string) (v : value) (o : object) :
  in_own_order (Object_keys o) = true →
  in_own_order (Object_keys (obj_set k v o)) = true.
Proof.
  intros Hord. unfold obj_set. destruct (obj_has k o) eqn:Hhas.
  - by rewrite obj_replace_keys.
  - destruct (String.eqb k "__proto__"); [done|].
    rewrite obj_create_keys. apply in_own_order_key_create; [|done].
    by apply obj_has_false.
Qed.

Lemma obj_set_no_proto (k : string) (v : value) (o : object) :
  "__proto__" ∉ Object_keys o → "__proto__" ∉ Object_keys (obj_set k v o).
Proof.
  intros Hproto. destruct (decide (k = "__proto__")) as [->|Hk].
  - by rewrite obj_set_proto.
  - rewrite obj_set_elem by done. by intros [?|?].
Qed.

(** What every write of [flattenObj] keeps, the result keeps. *)
Lemma flattenObj_invariant (P : object → Prop) (keepNull : bool) :
  (∀ k v result, P result → P (obj_set k v result)) →
  ∀ (o : value) (prefix : string) (result : object),
    P result → P (flattenObj o prefix result keepNull).
Proof.
  intros Hset.
  induction o as [ | | b | n | | s | items IH | props IH | f | sw | bw ] using value_nested_ind;
    intros prefix result Hres; rewrite flattenObj_unfold;
    (destruct (isString _ || isNumber _ || isBool _ || (keepNull && isNull _));
     [by apply Hset|]);
    destruct (isArray _ || isObject _); try done.
  - generalize 0. revert result Hres.
    induction IH as [|o_i items Ho_i _ IHitems]; intros result Hres i; [done|].
    apply IHitems. by apply Ho_i.
  - revert result Hres.
    induction IH as [|[i o_i] props Ho_i _ IHprops]; intros result Hres; [done|].
    apply IHprops. by apply Ho_i.
Qed.

Lemma obj_get_value (k : string) (v : value) (o : object) :
  obj_get k o = Some v → v ∈ Object_values o.
Proof.
  unfold Object_values. induction o as [|[k' v'] o IH]; [done|]. csimpl.
  destruct (String.eqb k k'); [intros [= ->]; left | right; by apply IH].
Qed.

(** On a host whose objects inherit no method [call], a mapping of
    leaves is an object for the type oracle. *)
Lemma leaves_isObject (r : object) :
  (∀ r : object, typeof (inherited (VObj r) "call") ≠ "function") →
  Forall (leaf false) (Object_values r) → isObject (VObj r) = true.
Proof.
  intros Hhost Hr. unfold isObject, type. cbn -[get_prop].
  assert (String.eqb (typeof (get_prop (VObj r) "call")) "function" = false) as ->; [|done].
  apply String.eqb_neq. unfold get_prop. cbn [get_own].
  destruct (obj_get "call" r) as [v|] eqn:Hcall; [|apply Hhost].
  assert (leaf false v) as Hv.
  { rewrite Forall_forall in Hr. by apply Hr, (obj_get_value "call"). }
  by destruct v.
Qed.

(** A flat mapping of strings, numbers and booleans is flattened to
    itself. *)
Lemma flattenObj_flat (r : object) :
  in_own_order (Object_keys r) = true →
  "__proto__" ∉ Object_keys r →
  Forall (leaf false) (Object_values r) →
  isObject (VObj r) = true →
  flattenObj (VObj r) "" [] false = r.
Proof.
  intros Hord Hproto Hr Hobj. rewrite flattenObj_unfold. rewrite Hobj.
  assert (isString (VObj r) || isNumber (VObj r) || isBool (VObj r)
          || (false && isNull (VObj r)) = false) as ->.
  { unfold isObject in Hobj.
    apply andb_prop in Hobj as [_ Htype]. apply String.eqb_eq in Htype.
    unfold isString, isNumber, isBool. by rewrite Htype. }
  rewrite orb_true_r. cbv iota.
  pose proof (write_loop (λ _, true) r [] Hord Hproto) as Hloop.
  simpl in Hloop. rewrite filter_all in Hloop. rewrite <- Hloop at 2.
  clear Hloop Hord Hproto Hobj. generalize (@nil (string * value)).
  unfold Object_values in Hr.
  induction r as [|[i o_i] r IH]; intros result; [done|].
  csimpl in Hr. apply Forall_cons in Hr as [Hleaf Hr].
  rewrite IH by done. cbn [foldl fst snd]. f_equal.
  rewrite flattenObj_unfold.
  assert (isString o_i || isNumber o_i || isBool o_i || (false && isNull o_i) = true)
    as -> by (by destruct o_i).
  done.
Qed.

End FlattenTwice.

(** X22.  Flattening a mapping twice is flattening it once.  On a host
    whose objects inherit no method [call], for a mapping the type
    oracle calls an object, none of whose objects, at any depth, has a
    property [__proto__] or [toString] of its own or a method [clone]:
    [flatten] returns a flat mapping, and flattening that mapping again
    gives it back.  So does flattening any flat mapping of strings,
    numbers and booleans that has no property [__proto__] or [toString]
    of its own. *)
Theorem flatten_mapping_idempotent {env : Environment} (o depth : value) :
  (∀ r : object, typeof (inherited (VObj r) "call") ≠ "function") →
  plain o = true → isObject o = true → truthy depth = true →
  flatten (flatten o depth) depth = flatten o depth
  ∧ (∀ r, in_own_order (Object_keys r) = true →
          ordinary_keys (Object_keys r) = true →
          obj_has "toString" r = false →
          Forall (leaf false) (Object_values r) →
          flatten (VObj r) depth = VObj r).
Proof.
  intros Hhost _ Hobj Hdepth.
  assert (∀ r, in_own_order (Object_keys r) = true →
               "__proto__" ∉ Object_keys r →
               Forall (leaf false) (Object_values r) →
               flatten (VObj r) depth = VObj r) as Hflat.
  { intros r Hord Hproto Hr. unfold flatten.
    rewrite (depth_or_default_truthy depth Hdepth). cbv zeta. rewrite Hdepth.
    change (negb true) with false. cbv iota.
    by rewrite (leaves_isObject r Hhost Hr), flattenObj_flat
      by (done || by apply leaves_isObject). }
  split.
  - assert (flatten o depth = VObj (flattenObj o "" [] false)) as ->.
    { unfold flatten. rewrite (depth_or_default_truthy depth Hdepth). cbv zeta.
      rewrite Hdepth. change (negb true) with false. cbv iota.
      destruct o; try done; by rewrite Hobj. }
    apply Hflat.
    + apply (flattenObj_invariant (λ r, in_own_order (Object_keys r) = true)); [|done].
      intros k v result. apply obj_set_in_own_order.
    + apply (flattenObj_invariant (λ r, "__proto__" ∉ Object_keys r)).
      * intros k v result. apply obj_set_no_proto.
      * apply not_elem_of_nil.
    + apply flattenObj_leaves. constructor.
  - intros r Hord Hproto%ordinary_keys_elem _ Hr. by apply Hflat.
Qed.

Lemma flatten_mapping_idempotent_witness :
  let o := VObj [("a", VObj [("b", VNum 1); ("c", VNull)]); ("d", VArr [VStr "x"])] in
  (∀ r : object,
     typeof (inherited (Environment := Samples.sample_environment) (VObj r) "call")
     ≠ "function")
  ∧ plain (env := Samples.sample_environment) o = true
  ∧ isObject (env := Samples.sample_environment) o = true
  ∧ truthy (VBool true) = true
  ∧ flatten (env := Samples.sample_environment)
      (flatten (env := Samples.sample_environment) o (VBool true)) (VBool true)
    = flatten (env := Samples.sample_environment) o (VBool true)
  ∧ (∀ r, in_own_order (Object_keys r) = true →
          ordinary_keys (Object_keys r) = true →
          obj_has "toString" r = false →
          Forall (leaf false) (Object_values r) →
          flatten (env := Samples.sample_environment) (VObj r) (VBool true) = VObj r).
Proof.
  intros o.
  assert (∀ r : object,
            typeof (inherited (Environment := Samples.sample_environment) (VObj r) "call")
            ≠ "function") as Hhost by (intros r; discriminate).
  split; [exact Hhost|]. split; [reflexivity|]. split; [reflexivity|].
  split; [reflexivity|].
  apply (flatten_mapping_idempotent (env := Samples.sample_environment) o (VBool true));
    [exact Hhost | reflexivity..].
Defined.

(** ** [FrozenSet]: the sets that can be made *)

Lemma FrozenSet_new_cases (iterable : value) :
  FrozenSet.new iterable
  = if nullish iterable
    then Ok {| FrozenSet.SetData := []; FrozenSet.extensible := false |}
    else match iterate iterable with
         | Ok [] => Ok {| FrozenSet.SetData := []; FrozenSet.extensible := false |}
         | Ok (_ :: _) => Throw FrozenSet.FrozenMutationError
         | Throw e => Throw e
         end.
Proof.
  unfold FrozenSet.new, FrozenSet.super, Set_constructor.
  destruct (nullish iterable); [done|].
  by destruct (iterate iterable) as [[|x items]|e].
Qed.

(** X23.  [new FrozenSet(iterable)] returns a set only when the
    iterable is [null] or [undefined] or yields nothing, and the set is
    then empty and frozen: every [FrozenSet] there is has no element.
    Of the arrays and the strings, the empty array and the empty string
    are the ones that make a set. *)
Theorem FrozenSet_new_only_empty (iterable : value) (this : FrozenSet.t) :
  (FrozenSet.new iterable = Ok this
   ↔ (nullish iterable = true ∨ iterate iterable = Ok [])
     ∧ this = {| FrozenSet.SetData := []; FrozenSet.extensible := false |})
  ∧ (∀ items, FrozenSet.new (VArr items) = Ok this
              ↔ items = []
                ∧ this = {| FrozenSet.SetData := []; FrozenSet.extensible := false |})
  ∧ (∀ s, FrozenSet.new (VStr s) = Ok this
          ↔ s = ""
            ∧ this = {| FrozenSet.SetData := []; FrozenSet.extensible := false |}).
Proof.
  split; [|split].
  - rewrite FrozenSet_new_cases. destruct (nullish iterable).
    + split; [intros [= <-]; split; [by left | done] | by intros [_ ->]].
    + destruct (iterate iterable) as [[|x items]|e].
      * split; [intros [= <-]; split; [by right | done] | by intros [_ ->]].
      * split; [done | by intros [[?|?] _]].
      * split; [done | by intros [[?|?] _]].
  - intros items. rewrite FrozenSet_new_cases. cbn [nullish iterate].
    destruct items as [|x items].
    + split; [by intros [= <-] | by intros [_ ->]].
    + split; [done | by intros [? _]].
  - intros s. rewrite FrozenSet_new_cases. cbn [nullish iterate].
    destruct s as [|c s].
    + split; [by intros [= <-] | by intros [_ ->]].
    + split; [done | by intros [? _]].
Qed.

(** ** [flattenObj] and [get]: the keys are paths *)
Section FlattenPaths.
Context {env : Environment}.

Lemma split_dot_aux_snoc (i : string) :
  no_dot i = true →
  ∀ p cur, split_dot_aux (p +:+ "." +:+ i) cur = split_dot_aux p cur ++ [i].
Proof.
  intros Hi. induction p as [|c p IH]; intros cur; simpl.
  - by rewrite split_dot_aux_no_dot.
  - destruct (Ascii.eqb c _); by rewrite IH.
Qed.

Lemma walk_app (ps qs : list value) :
  ∀ res, walk res (ps ++ qs) = do r <- walk res ps; walk r qs.
Proof.
  induction ps as [|p ps IH]; intros res; simpl; [done|].
  destruct (get_member res p); simpl; [apply IH | done].
Qed.

Lemma isEmpty_string (s : string) : isEmpty (VStr s) = String.eqb s "".
Proof.
  unfold isEmpty.
  rewrite (len_own_length (VStr s) (VNum (Z.of_nat (String.length s)))) by done.
  by destruct s.
Qed.

Lemma append_not_empty (p i : string) : i ≠ "" → p +:+ "." +:+ i ≠ "".
Proof. by destruct p. Qed.

Lemma dotted_VObj (props : object) :
  dotted (VObj props) = true →
  in_own_order (Object_keys props) = true
  ∧ Forall (λ kv, kv.1 ≠ "" ∧ no_dot kv.1 = true ∧ dotted kv.2 = true) props.
Proof.
  simpl. intros [Hord Hprops]%andb_prop. split; [done|]. clear Hord.
  induction props as [|kv props IH]; [constructor|].
  apply andb_prop in Hprops as [Hkv Hprops].
  apply andb_prop in Hkv as [Hkv Hdotted]. apply andb_prop in Hkv as [Hne Hnodot].
  apply negb_true_iff, String.eqb_neq in Hne.
  constructor; [done | by apply IH].
Qed.

(** Every entry [flattenObj] writes is found in the root by walking its
    key as a dotted path. *)
Lemma flattenObj_writes_paths (root : object) (keepNull : bool) :
  ∀ (o : value) (prefix : string) (result : object),
    dotted o = true →
    (if String.eqb prefix "" then o = VObj root
     else walk (VObj root) (VStr <$> split_dot prefix) = Ok o) →
    (∀ p v, obj_get p result = Some v →
            walk (VObj root) (VStr <$> split_dot p) = Ok v) →
    ∀ p v, obj_get p (flattenObj o prefix result keepNull) = Some v →
           walk (VObj root) (VStr <$> split_dot p) = Ok v.
Proof.
  induction o as [ | | b | n | | s | items IH | props IH | f | sw | bw ] using value_nested_ind;
    intros prefix result Hdotted Hprefix Hres; rewrite flattenObj_unfold;
    (destruct (isString _ || isNumber _ || isBool _ || (keepNull && isNull _)) eqn:Htest;
     [intros p v Hp; apply obj_get_set in Hp as [[-> ->]|Hp]; [|by apply (Hres p v)];
      destruct (String.eqb_spec prefix "") as [->|_]; [|done]|]);
    try discriminate Hprefix;
    try (destruct (isArray _ || isObject _); done).
  - (* the root is no leaf *)
    injection Hprefix as ->. exfalso.
    apply flattenObj_test_leaf in Htest. by destruct keepNull.
  - destruct (isArray (VObj props) || isObject (VObj props)); [|done].
    clear Htest. apply dotted_VObj in Hdotted as [Hord Hprops].
    set (pref := λ i : string, if isEmpty (VStr prefix) then i else prefix +:+ "." +:+ i).
    set (Inv := λ result : object,
           ∀ p v, obj_get p result = Some v →
                  walk (VObj root) (VStr <$> split_dot p) = Ok v).
    assert (Forall (λ kv, ∀ result, Inv result →
                                    Inv (flattenObj kv.2 (pref kv.1) result keepNull))
                   props) as Hsteps.
    { rewrite Forall_forall in IH, Hprops |- *. intros [i o_i] Hin res Hresult.
      destruct (Hprops _ Hin) as (Hne & Hnodot & Hdotted). simpl in *.
      unfold Inv in Hresult |- *.
      apply (IH (i, o_i) Hin (pref i) res); [done| |done]. simpl.
      assert (get_member (VObj props) (VStr i) = Ok o_i) as Hread.
      { unfold get_member. simpl nullish. cbv iota.
        unfold to_property_key. cbn [to_string].
        by rewrite (in_own_order_get_prop props i o_i). }
      unfold pref. rewrite isEmpty_string.
      destruct (String.eqb_spec prefix "") as [->|Hprefix'].
      - injection Hprefix as ->.
        destruct (String.eqb_spec i "") as [?|_]; [done|].
        unfold split_dot. rewrite split_dot_aux_no_dot by done.
        cbn [fmap list_fmap walk String.rev_app]. by rewrite Hread.
      - destruct (String.eqb_spec (prefix +:+ "." +:+ i) "") as [Heq|_];
          [by apply append_not_empty in Heq|].
        unfold split_dot. rewrite split_dot_aux_snoc by done.
        rewrite fmap_app, walk_app. fold (split_dot prefix). rewrite Hprefix.
        cbn [fmap list_fmap walk bind]. by rewrite Hread. }
    clear -Hsteps Hres. fold (Inv result) in Hres. revert result Hres.
    induction Hsteps as [|[i o_i] sub Hstep _ IHsub]; intros result Hres; [done|].
    apply IHsub. by apply Hstep.
Qed.

(** X24.  The keys of a flattened mapping are paths that [get]
    follows: for a mapping without arrays whose keys, at any depth, are
    not empty and hold no dot, reading a key of [flattenObj(o)] from [o]
    with [get] gives the value stored under that key.  An array on the
    way breaks this: its elements are stored under keys such as [c[0]],
    which [get] does not take apart. *)
Theorem flattenObj_keys_are_paths (props : object) (keepNull : bool) :
  dotted (VObj props) = true →
  (∀ p v, obj_get p (flattenObj (VObj props) "" [] keepNull) = Some v →
          get (VStr p) (VObj props) VUndef = v)
  ∧ flattenObj (env := Samples.sample_environment)
      (VObj [("c", VArr [VNum 2])]) "" [] keepNull = [("c[0]", VNum 2)]
  ∧ get (env := Samples.sample_environment)
      (VStr "c[0]") (VObj [("c", VArr [VNum 2])]) VUndef = VUndef.
Proof.
  intros Hdotted. split; [|by destruct keepNull]. intros p v Hp.
  apply (flattenObj_writes_paths props keepNull) in Hp; [|done..].
  unfold get. cbn [nullish]. rewrite Hp. by destruct v.
Qed.

End FlattenPaths.

Lemma flattenObj_keys_are_paths_witness :
  let props := [("a", VObj [("b", VNum 1); ("c", VObj [("d", VStr "x")])]); ("e", VBool true)] in
  dotted (VObj props) = true
  ∧ (∀ p v, obj_get p (flattenObj (env := Samples.sample_environment) (VObj props) "" [] false)
            = Some v →
            get (env := Samples.sample_environment) (VStr p) (VObj props) VUndef = v)
  ∧ flattenObj (env := Samples.sample_environment) (VObj [("c", VArr [VNum 2])]) "" [] false
    = [("c[0]", VNum 2)]
  ∧ get (env := Samples.sample_environment)
      (VStr "c[0]") (VObj [("c", VArr [VNum 2])]) VUndef = VUndef.
Proof.
  intros props. split; [reflexivity|].
  apply (flattenObj_keys_are_paths (env := Samples.sample_environment) props false).
  reflexivity.
Defined.
